(** * Boundary masks for COCO/LVIS annotations

    A shallow embedding of [boundary_iou/utils/boundary_utils.py]:
    the boundary extractor [mask_to_boundary], the per-shard loop
    [augment_annotations_with_boundary_single_core], the two fan-out /
    fan-in drivers and the file-level wrapper, followed by the properties
    the specification states about them.

    Conventions.  Python exceptions are values of [exn] and a call that may
    raise returns a [result].  [numpy] arrays of [uint8] are records with
    their shape and their rows; pixel values are integers in [0, 255] and
    the wrap-around of [uint8] arithmetic is written out.  Python floats are
    IEEE 754 binary64 numbers, here the kernel's primitive floats.  An
    annotation is a Python [dict] with string keys, here a [gmap string].
    What OpenCV can allocate depends on the process it runs in, which is a
    parameter [Memory] of the development. *)

From Stdlib Require Import ZArith Floats Ascii.
From stdpp Require Import base list gmap strings.
From stdpp Require functions.

Open Scope Z_scope.

(** ** Exceptions and results *)

Inductive exn : Type :=
| ValueError (msg : string)
| OverflowError (msg : string)
| KeyError (key : string)
| IndexError (msg : string)
| FileNotFoundError
| ProviderError (code : nat)
| cv2_error.

Inductive result (A : Type) : Type :=
| Ok (a : A)
| Raise (e : exn).
Arguments Ok {A} a.
Arguments Raise {A} e.

(** Sequencing: the first exception ends the computation. *)
#[global] Instance result_bind : MBind result := λ A B k r,
  match r with
  | Ok a => k a
  | Raise e => Raise e
  end.

Definition is_Ok {A} (r : result A) : Prop := ∃ a, r = Ok a.

(** ** Python and numpy scalars *)

(** [float(n)] for a Python [int]: the binary64 number nearest to [n]. *)
Definition float_of_int (n : Z) : float :=
  SF2Prim (binary_normalize prec emax n 0 false).

(** [np.sqrt(n)] for a Python [int] [n]. *)
Definition np_sqrt (n : Z) : float := PrimFloat.sqrt (float_of_int n).

(** The integer nearest to [m * 2^e], ties going to the even one. *)
Definition round_half_even (m : positive) (e : Z) : Z :=
  match e with
  | Zneg p =>
      let d := 2 ^ Zpos p in
      let q := Zpos m / d in
      let r := Zpos m mod d in
      match 2 * r ?= d with
      | Lt => q
      | Gt => q + 1
      | Eq => if Z.even q then q else q + 1
      end
  | _ => Zpos m * 2 ^ e
  end.

(** [int(round(x))]: Python rounds a float to the nearest integer, ties to
    even, and refuses the values that have none. *)
Definition py_round (x : float) : result Z :=
  match Prim2SF x with
  | S754_zero _ => Ok 0
  | S754_finite s m e =>
      Ok (if s then - round_half_even m e else round_half_even m e)
  | S754_infinity _ => Raise (OverflowError "cannot convert float infinity to integer")
  | S754_nan => Raise (ValueError "cannot convert float NaN to integer")
  end.

(** ** Two-dimensional [uint8] arrays *)

Record ndarray : Type := NdArray {
  rows : nat;
  cols : nat;
  data : list (list Z)
}.

Definition shape (a : ndarray) : nat * nat := (rows a, cols a).

(** The rows agree with the recorded shape. *)
Definition well_shaped (a : ndarray) : Prop :=
  length (data a) = rows a ∧ Forall (λ r, length r = cols a) (data a).

(** [a[i, j]], when the index is inside the array. *)
Definition pixel (a : ndarray) (i j : nat) : option Z :=
  data a !! i ≫= λ r, r !! j.

(** A binary mask: every stored value is 0 or 1. *)
Definition binary (a : ndarray) : Prop :=
  Forall (Forall (λ v, v = 0 ∨ v = 1)) (data a).

(** [np.ones((h, w), dtype=np.uint8)] *)
Definition np_ones (h w : nat) : ndarray :=
  NdArray h w (replicate h (replicate w 1)).

(** [cv2.copyMakeBorder(src, top, bottom, left, right, cv2.BORDER_CONSTANT,
    value=value)] *)
Definition copyMakeBorder (src : ndarray) (top bottom left right : nat)
    (value : Z) : ndarray :=
  let w' := (left + cols src + right)%nat in
  NdArray (top + rows src + bottom) w'
    (replicate top (replicate w' value)
     ++ ((λ r, replicate left value ++ r ++ replicate right value) <$> data src)
     ++ replicate bottom (replicate w' value)).

(** The pixel an erosion reads at [(y, x)].  [cv2.erode] is called with its
    default border, [morphologyDefaultBorderValue()]: a position outside the
    image never lowers a minimum, so it reads as the largest [uint8]. *)
Definition border_read (img : ndarray) (y x : Z) : Z :=
  if (0 <=? y) && (0 <=? x) then
    default 255 (pixel img (Z.to_nat y) (Z.to_nat x))
  else 255.

(** The offsets of the non-zero kernel entries from the anchor, which
    [cv2.erode] puts at the kernel centre by default. *)
Definition kernel_offsets (kernel : ndarray) : list (Z * Z) :=
  let ay := Z.of_nat (rows kernel) / 2 in
  let ax := Z.of_nat (cols kernel) / 2 in
  concat (imap (λ u row,
    concat (imap (λ v k,
      if k =? 0 then [] else [(Z.of_nat u - ay, Z.of_nat v - ax)]) row))
    (data kernel)).

(** One erosion: each pixel becomes the minimum under the kernel. *)
Definition erode_px (img : ndarray) (offsets : list (Z * Z)) (i j : nat) : Z :=
  foldr Z.min 255
    ((λ d, border_read img (Z.of_nat i + d.1) (Z.of_nat j + d.2)) <$> offsets).

Definition erode_once (offsets : list (Z * Z)) (img : ndarray) : ndarray :=
  NdArray (rows img) (cols img)
    (imap (λ i row, imap (λ j _, erode_px img offsets i j) row) (data img)).

(** The erosion applied [n] times. *)
Definition erosions (offsets : list (Z * Z)) (n : nat) (src : ndarray)
    : ndarray :=
  Nat.iter n (erode_once offsets) src.

(** The values of a C [int]. *)
Definition INT_MAX : Z := 2 ^ 31 - 1.
Definition INT_MIN : Z := - 2 ^ 31.

Definition fits_int (n : Z) : bool := (INT_MIN <=? n) && (n <=? INT_MAX).

(** The process OpenCV runs in: whether it has the memory to erode by a
    structuring element of [height] rows and [width] columns, for the
    element and for the buffers of the filter. *)
Class Memory : Type := { allocates : Z → Z → bool }.

(** Every entry of the kernel is set. *)
Definition full_kernel (kernel : ndarray) : bool :=
  forallb (forallb (λ k, negb (k =? 0))) (data kernel).

(** [ksize + (iterations - 1) * (ksize - 1)]: the side of the kernel that
    does [iterations] erosions at once. *)
Definition merged_size (ksize : nat) (iterations : Z) : Z :=
  Z.of_nat ksize + (iterations - 1) * (Z.of_nat ksize - 1).

(** [cv2.erode(src, kernel, iterations=iterations)]: the erosion by
    [kernel] applied [iterations] times.  The binding takes [iterations] as
    a C [int].  For more than one iteration of a full kernel OpenCV makes
    the kernel of all the iterations, of the merged size, and erodes once
    by it; with the default border, which no minimum reads, that is the
    erosion by [kernel] applied [iterations] times.  The call raises
    [cv2.error] when [iterations] is no C [int], or when the merged kernel
    has no C [int] as its size or cannot be allocated. *)
Definition cv2_erode {memory : Memory} (src kernel : ndarray) (iterations : Z)
    : result ndarray :=
  if negb (fits_int iterations) then Raise cv2_error
  else if (1 <? iterations) && full_kernel kernel then
    let height := merged_size (rows kernel) iterations in
    let width := merged_size (cols kernel) iterations in
    if fits_int height && fits_int width && allocates height width then
      Ok (erosions (kernel_offsets kernel) (Z.to_nat iterations) src)
    else Raise cv2_error
  else Ok (erosions (kernel_offsets kernel) (Z.to_nat iterations) src).

(** [l[lo:hi]] for non-negative bounds. *)
Definition slice {A} (l : list A) (lo hi : nat) : list A :=
  take (hi - lo) (drop lo l).

(** [a[r0:r1, c0:c1]] for non-negative bounds. *)
Definition slice2 (a : ndarray) (r0 r1 c0 c1 : nat) : ndarray :=
  NdArray (min r1 (rows a) - min r0 (rows a))
          (min c1 (cols a) - min c0 (cols a))
          ((λ r, slice r c0 c1) <$> slice (data a) r0 r1).

(** [a - b] on [uint8] arrays of one shape: the difference modulo 256. *)
Definition uint8_sub (a b : ndarray) : ndarray :=
  NdArray (rows a) (cols a)
    (zip_with (zip_with (λ x y, (x - y) mod 256)) (data a) (data b)).

(** ** The boundary extractor *)

(** Lines 21 to 25: the number of erosions. *)
Definition dilation_of (h w : nat) (dilation_ratio : float) : result Z :=
  let img_diag := np_sqrt (Z.of_nat h ^ 2 + Z.of_nat w ^ 2) in
  dilation ← py_round (dilation_ratio * img_diag)%float ;
  Ok (if dilation <? 1 then 1 else dilation).

Definition mask_to_boundary {memory : Memory} (mask : ndarray)
    (dilation_ratio : float) : result ndarray :=
  let '(h, w) := shape mask in
  dilation ← dilation_of h w dilation_ratio ;
  let new_mask := copyMakeBorder mask 1 1 1 1 0 in
  let kernel := np_ones 3 3 in
  new_mask_erode ← cv2_erode new_mask kernel dilation ;
  let mask_erode := slice2 new_mask_erode 1 (h + 1) 1 (w + 1) in
  Ok (uint8_sub mask mask_erode).

(** The default argument [dilation_ratio=0.02]: the binary64 number nearest
    to two hundredths. *)
#[warnings="-inexact-float"]
Definition default_dilation_ratio : float := 0.02.

(** The padded mask after [dilation] erosions by the 3x3 kernel: what line
    29 computes when it returns. *)
Definition eroded_padding (mask : ndarray) (dilation : Z) : ndarray :=
  erosions (kernel_offsets (np_ones 3 3)) (Z.to_nat dilation)
    (copyMakeBorder mask 1 1 1 1 0).

(** Line 29 returns for this number of erosions: it fits a C [int], and
    for more than one erosion the merged kernel, of side
    [2 * dilation + 1], has a C [int] as its side and can be allocated. *)
Definition erode_accepts {memory : Memory} (dilation : Z) : bool :=
  fits_int dilation
  && ((dilation <=? 1)
      || fits_int (merged_size 3 dilation)
         && allocates (merged_size 3 dilation) (merged_size 3 dilation)).

(** Lines 27 to 32 for a given number of erosions. *)
Definition erosion_difference (mask : ndarray) (dilation : Z) : ndarray :=
  uint8_sub mask
    (slice2 (eroded_padding mask dilation) 1 (rows mask + 1) 1 (cols mask + 1)).

(** The image diagonal times the ratio, as line 23 rounds it. *)
Definition scaled_diagonal (mask : ndarray) (dilation_ratio : float) : float :=
  (dilation_ratio
   * np_sqrt (Z.of_nat (rows mask) ^ 2 + Z.of_nat (cols mask) ^ 2))%float.

(** What the specification promises of a boundary mask: the shape and the
    value domain of the source, a pixel set exactly where the source is
    foreground and [dilation] erosions of the padded source removed it,
    and a subtraction that never goes below zero. *)
Definition is_boundary_of (mask : ndarray) (dilation : Z) (boundary : ndarray)
    : Prop :=
  shape boundary = shape mask ∧ well_shaped boundary ∧ binary boundary
  ∧ (∀ i j, pixel boundary i j = Some 1
            ↔ pixel mask i j = Some 1
              ∧ pixel (eroded_padding mask dilation) (S i) (S j) = Some 0)
  ∧ (∀ i j m e, pixel mask i j = Some m →
                pixel (eroded_padding mask dilation) (S i) (S j) = Some e →
                0 ≤ m - e).

(** [mask_to_boundary] returns such a mask. *)
Definition returns_boundary {memory : Memory} (mask : ndarray)
    (dilation_ratio : float) : Prop :=
  ∃ dilation boundary,
    dilation_of (rows mask) (cols mask) dilation_ratio = Ok dilation
    ∧ mask_to_boundary mask dilation_ratio = Ok boundary
    ∧ is_boundary_of mask dilation boundary.

(** [mask_to_boundary] erodes once. *)
Definition erodes_once {memory : Memory} (mask : ndarray) (dilation_ratio : float)
    : Prop :=
  dilation_of (rows mask) (cols mask) dilation_ratio = Ok 1
  ∧ mask_to_boundary mask dilation_ratio = Ok (erosion_difference mask 1)
  ∧ eroded_padding mask 1
    = erode_once (kernel_offsets (np_ones 3 3)) (copyMakeBorder mask 1 1 1 1 0).

(** The ring of width one along the border of an [h] by [w] array: ones
    on the first and last row and column, zeros inside. *)
Definition perimeter_ring (h w : nat) : ndarray :=
  NdArray h w
    ((λ i, (λ j, if ((0 <? i) && (i <? h - 1) && (0 <? j) && (j <? w - 1))%nat
                 then 0 else 1) <$> seq 0 w) <$> seq 0 h).

(** A finite negative ratio whose product with a diagonal of [sqrt 2]
    overflows to minus infinity. *)
#[warnings="-inexact-float"]
Definition huge_negative_ratio : float := (-1.5e308)%float.

(** ** Arrays: shapes and pixels *)

Section arrays.
Implicit Types (a img src : ndarray) (i j : nat) (v : Z).

Lemma pixel_Some a i j v :
  pixel a i j = Some v ↔ ∃ r, data a !! i = Some r ∧ r !! j = Some v.
Proof.
  unfold pixel. destruct (data a !! i) as [r|]; simpl.
  - split; [eauto|]. by intros (r' & [= <-] & Hv).
  - split; [done|]. by intros (r' & [=] & _).
Qed.

Lemma pixel_in_range a i j :
  well_shaped a → (i < rows a)%nat → (j < cols a)%nat → is_Some (pixel a i j).
Proof.
  intros [Hlen Hrows] Hi Hj. unfold pixel.
  destruct (lookup_lt_is_Some_2 (data a) i) as [r Hr]; [lia|].
  rewrite Hr. simpl. apply lookup_lt_is_Some_2.
  rewrite Forall_lookup in Hrows. rewrite (Hrows _ _ Hr). done.
Qed.

Lemma pixel_range a i j v :
  well_shaped a → pixel a i j = Some v → (i < rows a)%nat ∧ (j < cols a)%nat.
Proof.
  intros [Hlen Hrows] (r & Hr & Hv)%pixel_Some.
  rewrite Forall_lookup in Hrows. rewrite <- Hlen, <- (Hrows _ _ Hr).
  eauto using lookup_lt_Some.
Qed.

Lemma binary_pixel a :
  binary a ↔ ∀ i j v, pixel a i j = Some v → v = 0 ∨ v = 1.
Proof.
  unfold binary. rewrite Forall_lookup. split.
  - intros H i j v (r & Hr & Hv)%pixel_Some.
    specialize (H _ _ Hr). rewrite Forall_lookup in H. eauto.
  - intros H i r Hr. apply Forall_lookup. intros j v Hv.
    apply (H i j). apply pixel_Some. eauto.
Qed.

(** *** Padding *)

Lemma copyMakeBorder_well_shaped src t b l r v :
  well_shaped src → well_shaped (copyMakeBorder src t b l r v).
Proof.
  intros [Hlen Hrows]. split; simpl.
  - rewrite !length_app, !length_replicate, length_fmap. lia.
  - rewrite !Forall_app. split_and!.
    + apply Forall_replicate. by rewrite length_replicate.
    + apply Forall_fmap. eapply Forall_impl; [exact Hrows|].
      intros row Hrow. simpl in *.
      rewrite !length_app, !length_replicate. lia.
    + apply Forall_replicate. by rewrite length_replicate.
Qed.

(** Inside a one-pixel border the padded array is the source, moved by
    one row and one column. *)
Lemma copyMakeBorder_inner src v i j :
  well_shaped src → (i < rows src)%nat → (j < cols src)%nat →
  pixel (copyMakeBorder src 1 1 1 1 v) (S i) (S j) = pixel src i j.
Proof.
  intros [Hlen Hrows] Hi Hj. unfold pixel. simpl.
  rewrite lookup_app_l by (rewrite length_fmap; lia).
  rewrite list_lookup_fmap.
  destruct (data src !! i) as [row|] eqn:Hrow; simpl; [|done].
  rewrite Forall_lookup in Hrows. specialize (Hrows _ _ Hrow).
  rewrite lookup_app_l by lia. done.
Qed.

Lemma copyMakeBorder_binary src t b l r :
  binary src → binary (copyMakeBorder src t b l r 0).
Proof.
  unfold binary. intros H. simpl. rewrite !Forall_app. split_and!.
  - apply Forall_replicate, Forall_replicate. by left.
  - apply Forall_fmap. eapply Forall_impl; [exact H|].
    intros row Hrow. simpl. rewrite !Forall_app. split_and!; [|done|].
    all: apply Forall_replicate; by left.
  - apply Forall_replicate, Forall_replicate. by left.
Qed.

(** *** Erosion *)

Lemma foldr_min_le (d x : Z) (l : list Z) : x ∈ l → foldr Z.min d l ≤ x.
Proof.
  induction 1 as [x l|x y l _ IH]; simpl; lia.
Qed.

Lemma foldr_min_cases (d : Z) (l : list Z) :
  foldr Z.min d l = d ∨ foldr Z.min d l ∈ l.
Proof.
  induction l as [|x l IH]; simpl; [by left|].
  destruct (Z.min_spec x (foldr Z.min d l)) as [[_ ->]|[_ ->]].
  - right. left.
  - destruct IH as [IH|IH]; [by left|]. right. by right.
Qed.

Lemma erode_once_well_shaped offs img :
  well_shaped img → well_shaped (erode_once offs img).
Proof.
  intros [Hlen Hrows]. split; simpl.
  - by rewrite length_imap.
  - apply Forall_lookup. intros i r.
    rewrite list_lookup_imap. destruct (data img !! i) as [r'|] eqn:Hr; [|done].
    intros [= <-]. rewrite length_imap.
    rewrite Forall_lookup in Hrows. eauto.
Qed.

Lemma pixel_erode_once offs img i j :
  pixel (erode_once offs img) i j
  = (λ _, erode_px img offs i j) <$> pixel img i j.
Proof.
  unfold pixel. simpl. rewrite list_lookup_imap.
  destruct (data img !! i) as [r|]; simpl; [|done].
  by rewrite list_lookup_imap.
Qed.

Lemma border_read_inside img i j v :
  pixel img i j = Some v → border_read img (Z.of_nat i + 0) (Z.of_nat j + 0) = v.
Proof.
  intros Hv. unfold border_read. rewrite !Z.add_0_r, !Nat2Z.id, Hv.
  by rewrite !(proj2 (Z.leb_le _ _)) by lia.
Qed.

Lemma border_read_cases img y x :
  border_read img y x = 255
  ∨ ∃ i j, pixel img i j = Some (border_read img y x).
Proof.
  unfold border_read. destruct (_ && _); [|by left].
  destruct (pixel img _ _) eqn:Hp; [|by left]. right. eauto.
Qed.

(** An erosion whose kernel holds its anchor never raises a pixel. *)
Lemma erode_px_le offs img i j v :
  (0, 0) ∈ offs → pixel img i j = Some v → erode_px img offs i j ≤ v.
Proof.
  intros Hc Hv. apply foldr_min_le, list_elem_of_fmap.
  exists (0, 0). split; [|done]. simpl. symmetry.
  by apply border_read_inside.
Qed.

(** It keeps a binary image binary. *)
Lemma erode_px_binary offs img i j :
  (0, 0) ∈ offs → binary img → is_Some (pixel img i j) →
  erode_px img offs i j = 0 ∨ erode_px img offs i j = 1.
Proof.
  intros Hc Hbin [v Hv]. rewrite binary_pixel in Hbin.
  pose proof (erode_px_le _ _ _ _ _ Hc Hv) as Hle.
  pose proof (Hbin _ _ _ Hv) as Hv01.
  unfold erode_px in *.
  destruct (foldr_min_cases 255 ((λ d, border_read img (Z.of_nat i + d.1)
    (Z.of_nat j + d.2)) <$> offs)) as [H255|Hin]; [lia|].
  apply list_elem_of_fmap in Hin as (d & Hd & _). rewrite Hd.
  destruct (border_read_cases img (Z.of_nat i + d.1) (Z.of_nat j + d.2))
    as [H255|(i' & j' & Hp)]; [lia|]. eauto.
Qed.

Lemma erode_once_binary offs img :
  (0, 0) ∈ offs → binary img → binary (erode_once offs img).
Proof.
  intros Hc Hbin. apply binary_pixel. intros i j v.
  rewrite pixel_erode_once.
  destruct (pixel img i j) as [u|] eqn:Hu; [|done]. intros [= <-].
  apply erode_px_binary; eauto.
Qed.

(** [n] erosions of a binary image: the shape stays, the image stays
    binary, and no pixel is raised. *)
Lemma erosions_spec src offs n :
  (0, 0) ∈ offs → well_shaped src → binary src →
  let e := erosions offs n src in
  well_shaped e ∧ shape e = shape src ∧ binary e
  ∧ ∀ i j v, pixel src i j = Some v → ∃ u, pixel e i j = Some u ∧ u ≤ v.
Proof.
  intros Hc Hws Hbin. unfold erosions.
  induction n as [|n (IHws & IHsh & IHbin & IHle)]; simpl.
  - split_and!; [done..|]. intros i j v ->. eexists. split; [done|lia].
  - split_and!.
    + by apply erode_once_well_shaped.
    + done.
    + by apply erode_once_binary.
    + intros i j v (u & Hu & Hle)%IHle. rewrite pixel_erode_once, Hu. simpl.
      eexists. split; [done|].
      pose proof (erode_px_le _ _ _ _ _ Hc Hu). lia.
Qed.

(** *** Slices and differences *)

Lemma pixel_slice2 a r0 r1 c0 c1 i j :
  pixel (slice2 a r0 r1 c0 c1) i j
  = if decide (i < r1 - r0 ∧ j < c1 - c0)%nat
    then pixel a (r0 + i) (c0 + j) else None.
Proof.
  unfold pixel, slice2, slice. simpl.
  rewrite list_lookup_fmap, lookup_take, lookup_drop.
  case_decide as Hi.
  - destruct (data a !! (r0 + i)%nat) as [r|]; simpl.
    + rewrite lookup_take, lookup_drop. by repeat case_decide; try lia.
    + by case_decide.
  - simpl. case_decide; [lia|done].
Qed.

Lemma slice2_well_shaped a r0 r1 c0 c1 :
  well_shaped a → well_shaped (slice2 a r0 r1 c0 c1).
Proof.
  intros [Hlen Hrows]. unfold slice2, slice. split; simpl.
  - rewrite length_fmap, length_take, length_drop. lia.
  - apply Forall_fmap, Forall_take, Forall_drop.
    eapply Forall_impl; [exact Hrows|]. intros r Hr. simpl in *.
    rewrite length_take, length_drop. lia.
Qed.

Lemma pixel_uint8_sub a a' i j :
  pixel (uint8_sub a a') i j
  = x ← pixel a i j; y ← pixel a' i j; Some ((x - y) mod 256).
Proof.
  unfold pixel. simpl. rewrite lookup_zip_with.
  destruct (data a !! i) as [r|]; simpl; [|done].
  destruct (data a' !! i) as [r'|]; simpl.
  - rewrite lookup_zip_with. done.
  - by destruct (r !! j).
Qed.

Lemma uint8_sub_well_shaped a a' :
  well_shaped a → well_shaped a' → shape a' = shape a →
  well_shaped (uint8_sub a a').
Proof.
  intros [Hlen Hrows] [Hlen' Hrows'] [= Hr Hc]. split; simpl.
  - rewrite length_zip_with. lia.
  - apply Forall_lookup. intros i r.
    intros (x & y & -> & Hx & Hy)%lookup_zip_with_Some.
    rewrite Forall_lookup in Hrows, Hrows'.
    rewrite length_zip_with, (Hrows _ _ Hx), (Hrows' _ _ Hy). lia.
Qed.

End arrays.

(** ** Floats: when rounding succeeds and what sign it has *)

Section floats.

(** A finite float rounds to an integer. *)
Lemma py_round_finite x : is_finite x = true → is_Ok (py_round x).
Proof.
  unfold is_finite, py_round, Prim2SF.
  intros [Hnan Hinf]%negb_true_iff%orb_false_iff.
  rewrite Hnan, Hinf. destruct (is_zero x); [by eexists|].
  destruct (Z.frexp x), (shr_fexp _ _ _ _ _), (shr_m _); by eexists.
Qed.

Lemma py_round_Ok_finite x r : py_round x = Ok r → is_finite x = true.
Proof.
  unfold is_finite, py_round. intros Hr.
  destruct (is_nan x) eqn:Hnan; [by unfold Prim2SF in Hr; rewrite Hnan in Hr|].
  destruct (is_infinity x) eqn:Hinf; [|done]. exfalso.
  unfold is_infinity in Hinf. rewrite FloatAxioms.eqb_spec, abs_spec in Hinf.
  change (Prim2SF infinity) with (S754_infinity false) in Hinf.
  destruct (Prim2SF x) as [?|?| |? ? ?]; done.
Qed.

Lemma round_half_even_nonneg m e : 0 ≤ round_half_even m e.
Proof.
  unfold round_half_even. destruct e as [|p|p]; [lia..|].
  assert (0 < 2 ^ Z.pos p) by (apply Z.pow_pos_nonneg; lia).
  assert (0 ≤ Z.pos m / 2 ^ Z.pos p) by (apply Z.div_pos; lia).
  destruct (_ ?= _); [destruct (Z.even _)|..]; lia.
Qed.

(** The values a correctly rounded result of sign [s] can take. *)
Definition signed_or_special (s : bool) (x : spec_float) : Prop :=
  match x with
  | S754_zero _ | S754_nan => True
  | S754_infinity s' | S754_finite s' _ _ => s' = s
  end.

Lemma binary_round_aux_signed s m e l :
  signed_or_special s (binary_round_aux prec emax s m e l).
Proof.
  unfold binary_round_aux.
  destruct (shr_fexp _ _ _ _ _) as [mrs' e'].
  destruct (shr_fexp _ _ _ _ _) as [mrs'' e''].
  destruct (shr_m mrs''); simpl; [done| |done].
  by destruct (_ <=? _).
Qed.

(** A square root is never a negative number. *)
Lemma sqrt_signed x : signed_or_special false (Prim2SF (PrimFloat.sqrt x)).
Proof.
  rewrite sqrt_spec. unfold SF64sqrt, SFsqrt.
  destruct (Prim2SF x) as [s|[]| |[] m e]; simpl; try done.
  destruct (SFsqrt_core_binary _ _ _ _) as [[mz ez] lz].
  apply binary_round_aux_signed.
Qed.

(** A float that is at most zero, times a square root, rounds to an
    integer that is at most zero whenever it rounds at all. *)
Lemma py_round_nonpos_mul_sqrt ratio y r :
  (ratio <=? 0)%float = true →
  py_round (ratio * PrimFloat.sqrt y)%float = Ok r → r ≤ 0.
Proof.
  rewrite leb_spec. unfold py_round. rewrite mul_spec.
  pose proof (sqrt_signed y) as Hd. revert Hd.
  change (Prim2SF 0) with (S754_zero false).
  destruct (Prim2SF ratio) as [sr|[]| |[] mr er],
    (Prim2SF (PrimFloat.sqrt y)) as [sd|sd| |sd md ed];
    simpl; try done; try (intros _ _ [= <-]; lia).
  intros -> _. simpl.
  pose proof (binary_round_aux_signed true (Z.pos (mr * md)) (er + ed) loc_Exact)
    as Hs. revert Hs.
  unfold SF64mul. simpl.
  destruct (binary_round_aux _ _ _ _ _ _) as [?|?| |s m e]; simpl; try done.
  - intros _ [= <-]. lia.
  - intros -> [= <-]. pose proof (round_half_even_nonneg m e). lia.
Qed.

End floats.

(** ** The boundary extractor: what it returns *)

Section boundary.
Context {memory : Memory}.
Implicit Types (mask : ndarray) (i j : nat).

(** [cv2.erode] with the 3x3 kernel of ones returns the iterated erosion,
    or raises. *)
Lemma cv2_erode_ones src dilation :
  cv2_erode src (np_ones 3 3) dilation
  = if erode_accepts dilation
    then Ok (erosions (kernel_offsets (np_ones 3 3)) (Z.to_nat dilation) src)
    else Raise cv2_error.
Proof.
  unfold cv2_erode, erode_accepts.
  change (full_kernel (np_ones 3 3)) with true.
  change (rows (np_ones 3 3)) with 3%nat.
  change (cols (np_ones 3 3)) with 3%nat.
  rewrite andb_true_r.
  destruct (fits_int dilation); simpl; [|done].
  rewrite Z.ltb_antisym. destruct (dilation <=? 1); simpl; [done|].
  destruct (fits_int (merged_size 3 dilation)); simpl; [|done].
  by destruct (allocates _ _).
Qed.

Lemma mask_to_boundary_unfold mask dilation_ratio :
  mask_to_boundary mask dilation_ratio
  = dilation ← dilation_of (rows mask) (cols mask) dilation_ratio;
    if erode_accepts dilation then Ok (erosion_difference mask dilation)
    else Raise cv2_error.
Proof.
  unfold mask_to_boundary. simpl.
  destruct (dilation_of _ _ _) as [dilation|]; simpl; [|done].
  rewrite cv2_erode_ones. by destruct (erode_accepts dilation).
Qed.

(** A single erosion is always accepted. *)
Lemma erode_accepts_one : erode_accepts 1 = true.
Proof. done. Qed.

(** A call that returns has computed a dilation that line 29 accepts, and
    returns the erosion difference for it. *)
Lemma mask_to_boundary_Ok mask dilation_ratio boundary :
  mask_to_boundary mask dilation_ratio = Ok boundary
  ↔ ∃ dilation,
      dilation_of (rows mask) (cols mask) dilation_ratio = Ok dilation
      ∧ erode_accepts dilation = true
      ∧ boundary = erosion_difference mask dilation.
Proof.
  rewrite mask_to_boundary_unfold. split.
  - destruct (dilation_of _ _ _) as [dilation|]; simpl; [|done].
    destruct (erode_accepts dilation) eqn:Hacc; [|done].
    intros [= <-]. by exists dilation.
  - intros (dilation & -> & Hacc & ->). simpl. by rewrite Hacc.
Qed.

Lemma dilation_of_round mask dilation_ratio r :
  py_round (scaled_diagonal mask dilation_ratio) = Ok r →
  dilation_of (rows mask) (cols mask) dilation_ratio
  = Ok (if r <? 1 then 1 else r).
Proof. unfold dilation_of, scaled_diagonal. by intros ->. Qed.

(** The dilation is computed exactly when the product of line 23 is a
    finite float. *)
Lemma dilation_of_Ok_iff mask dilation_ratio :
  is_Ok (dilation_of (rows mask) (cols mask) dilation_ratio)
  ↔ is_finite (scaled_diagonal mask dilation_ratio) = true.
Proof.
  split.
  - intros [dilation Hd]. unfold dilation_of in Hd.
    fold (scaled_diagonal mask dilation_ratio) in Hd.
    destruct (py_round (scaled_diagonal mask dilation_ratio)) as [r|] eqn:Hr;
      [|done].
    by apply py_round_Ok_finite in Hr.
  - intros [r Hr]%py_round_finite.
    rewrite (dilation_of_round _ _ _ Hr). by eexists.
Qed.

(** [mask_to_boundary] returns exactly when the product of line 23 is a
    finite float and line 29 accepts the dilation computed from it. *)
Lemma mask_to_boundary_Ok_iff mask dilation_ratio :
  is_Ok (mask_to_boundary mask dilation_ratio)
  ↔ ∃ dilation,
      dilation_of (rows mask) (cols mask) dilation_ratio = Ok dilation
      ∧ erode_accepts dilation = true.
Proof.
  split.
  - intros [boundary (dilation & Hd & Hacc & _)%mask_to_boundary_Ok].
    by exists dilation.
  - intros (dilation & Hd & Hacc). eexists.
    apply mask_to_boundary_Ok. by exists dilation.
Qed.

Lemma centre_in_kernel : (0, 0) ∈ kernel_offsets (np_ones 3 3).
Proof. vm_compute. do 4 right. left. Qed.

(** Around a source pixel: the eroded padding has a binary value there
    that is at most the source value. *)
Lemma eroded_padding_pixel mask dilation i j m :
  well_shaped mask → binary mask → pixel mask i j = Some m →
  ∃ e, pixel (eroded_padding mask dilation) (S i) (S j) = Some e
       ∧ (e = 0 ∨ e = 1) ∧ e ≤ m.
Proof.
  intros Hws Hbin Hm.
  destruct (pixel_range _ _ _ _ Hws Hm) as [Hi Hj].
  destruct (erosions_spec (copyMakeBorder mask 1 1 1 1 0)
    (kernel_offsets (np_ones 3 3)) (Z.to_nat dilation) centre_in_kernel)
    as (_ & _ & Hbe & Hle).
  { by apply copyMakeBorder_well_shaped. }
  { by apply copyMakeBorder_binary. }
  destruct (Hle (S i) (S j) m) as (e & He & Hem).
  { by rewrite copyMakeBorder_inner. }
  exists e. split_and!; [done| |done].
  rewrite binary_pixel in Hbe. eauto.
Qed.

Lemma erosion_difference_pixel mask dilation i j :
  well_shaped mask →
  pixel (erosion_difference mask dilation) i j
  = m ← pixel mask i j;
    e ← pixel (eroded_padding mask dilation) (S i) (S j);
    Some ((m - e) mod 256).
Proof.
  intros Hws. unfold erosion_difference.
  rewrite pixel_uint8_sub, pixel_slice2.
  destruct (pixel mask i j) as [m|] eqn:Hm; simpl; [|done].
  destruct (pixel_range _ _ _ _ Hws Hm) as [Hi Hj].
  case_decide; [done|lia].
Qed.

Lemma erosion_difference_boundary mask dilation :
  well_shaped mask → binary mask →
  is_boundary_of mask dilation (erosion_difference mask dilation).
Proof.
  intros Hws Hbin. pose proof Hbin as Hbin'. rewrite binary_pixel in Hbin'.
  assert (∀ i j v, pixel (erosion_difference mask dilation) i j = Some v →
    ∃ m e, pixel mask i j = Some m
           ∧ pixel (eroded_padding mask dilation) (S i) (S j) = Some e
           ∧ (m = 0 ∨ m = 1) ∧ (e = 0 ∨ e = 1) ∧ e ≤ m ∧ v = m - e) as Hpx.
  { intros i j v. rewrite erosion_difference_pixel by done.
    destruct (pixel mask i j) as [m|] eqn:Hm; simpl; [|done].
    destruct (eroded_padding_pixel _ dilation _ _ _ Hws Hbin Hm)
      as (e & He & He01 & Hle).
    rewrite He. simpl. intros [= <-]. exists m, e.
    pose proof (Hbin' _ _ _ Hm).
    split_and!; eauto. rewrite Z.mod_small; lia. }
  split_and!.
  - done.
  - destruct (erosions_spec (copyMakeBorder mask 1 1 1 1 0)
      (kernel_offsets (np_ones 3 3)) (Z.to_nat dilation) centre_in_kernel)
      as (Hwe & [= Hr Hc] & _).
    { by apply copyMakeBorder_well_shaped. }
    { by apply copyMakeBorder_binary. }
    apply uint8_sub_well_shaped; [done|by apply slice2_well_shaped|].
    unfold shape, slice2, eroded_padding. simpl. rewrite Hr, Hc. simpl.
    f_equal; lia.
  - apply binary_pixel. intros i j v (m & e & _ & _ & ? & ? & ? & ->)%Hpx. lia.
  - intros i j. split.
    + intros (m & e & -> & -> & ? & ? & ? & ?)%Hpx.
      split; f_equal; lia.
    + intros [Hm He]. rewrite erosion_difference_pixel, Hm by done. simpl.
      by rewrite He.
  - intros i j m e Hm He.
    destruct (eroded_padding_pixel _ dilation _ _ _ Hws Hbin Hm)
      as (e' & He' & _ & Hle).
    rewrite He in He'. injection He' as ->. lia.
Qed.

(** C1, amended.  For every two-dimensional binary mask and every
    [dilation_ratio] whose product with the image diagonal is a finite
    float and whose dilation [cv2.erode] accepts (a single erosion, or a
    dilation [d] that fits a C [int] and whose merged kernel of side
    [2 * d + 1] has a C [int] as its side and can be allocated),
    [mask_to_boundary] returns a mask of the shape of the source with
    values in {0, 1}, in which a pixel is set if and only if it is
    foreground in the source and [dilation] erosions by the 3x3 kernel of
    the source padded with one pixel of zeros removed it; the [uint8]
    subtraction never goes below zero. *)
Theorem mask_to_boundary_returns_boundary mask dilation_ratio :
  well_shaped mask → binary mask →
  is_finite (scaled_diagonal mask dilation_ratio) = true →
  (∀ dilation,
     dilation_of (rows mask) (cols mask) dilation_ratio = Ok dilation →
     erode_accepts dilation = true) →
  returns_boundary mask dilation_ratio.
Proof.
  intros Hws Hbin [r Hr]%py_round_finite Hacc.
  pose proof (dilation_of_round _ _ _ Hr) as Hd.
  exists (if r <? 1 then 1 else r),
    (erosion_difference mask (if r <? 1 then 1 else r)).
  split_and!.
  - done.
  - apply mask_to_boundary_Ok. eexists. split_and!; [done| |done].
    by apply Hacc.
  - by apply erosion_difference_boundary.
Qed.

(** Both conditions are needed: a call returns only if the product is
    finite and line 29 accepts the dilation. *)
Lemma mask_to_boundary_returns_only_if mask dilation_ratio :
  is_Ok (mask_to_boundary mask dilation_ratio) →
  is_finite (scaled_diagonal mask dilation_ratio) = true
  ∧ ∀ dilation,
      dilation_of (rows mask) (cols mask) dilation_ratio = Ok dilation →
      erode_accepts dilation = true.
Proof.
  intros (dilation & Hd & Hacc)%mask_to_boundary_Ok_iff. split.
  - apply dilation_of_Ok_iff. by eexists.
  - intros dilation' Hd'. congruence.
Qed.

(** Line 29 refuses a dilation that is no C [int], whatever the memory:
    a 1 by 1 mask at the ratio 1e10, whose product with the diagonal is
    finite. *)
Lemma erode_refuses_huge_dilation :
  is_finite (scaled_diagonal (np_ones 1 1) 1e10) = true
  ∧ dilation_of 1 1 1e10 = Ok 14142135624
  ∧ mask_to_boundary (np_ones 1 1) 1e10 = Raise cv2_error.
Proof. split_and!; by vm_compute. Qed.

(** C9, amended.  For every mask and every [dilation_ratio] whose product
    with the image diagonal is a finite float: if the ratio is at most
    zero, or if the product rounds to less than 1, [mask_to_boundary]
    raises nothing, the computed dilation is exactly 1 and the padded mask
    is eroded exactly once. *)
Theorem minimum_dilation mask dilation_ratio :
  is_finite (scaled_diagonal mask dilation_ratio) = true →
  (dilation_ratio <=? 0)%float = true
  ∨ (∃ r, py_round (scaled_diagonal mask dilation_ratio) = Ok r ∧ r < 1) →
  erodes_once mask dilation_ratio.
Proof.
  intros [r Hr]%py_round_finite Hsmall.
  assert (r < 1) as Hlt.
  { destruct Hsmall as [Hle|(r' & Hr' & Hlt)].
    - pose proof (py_round_nonpos_mul_sqrt _ _ _ Hle Hr). lia.
    - congruence. }
  pose proof (dilation_of_round _ _ _ Hr) as Hd.
  rewrite (proj2 (Z.ltb_lt _ _) Hlt) in Hd.
  split_and!; [done| |done].
  apply mask_to_boundary_Ok. by exists 1.
Qed.

Lemma pixel_perimeter_ring h w i j :
  pixel (perimeter_ring h w) i j
  = if decide (i < h ∧ j < w)%nat
    then Some (if ((0 <? i) && (i <? h - 1) && (0 <? j) && (j <? w - 1))%nat
               then 0 else 1)
    else None.
Proof.
  unfold pixel, perimeter_ring. simpl. rewrite list_lookup_fmap.
  destruct (decide (i < h)%nat) as [Hi|Hi].
  - rewrite lookup_seq_lt by done. simpl. rewrite list_lookup_fmap.
    destruct (decide (j < w)%nat) as [Hj|Hj].
    + rewrite lookup_seq_lt by done. simpl. by rewrite decide_True.
    + rewrite lookup_seq_ge by lia. simpl. rewrite decide_False; [done|lia].
  - rewrite lookup_seq_ge by lia. simpl. rewrite decide_False; [done|lia].
Qed.

(** C8.  For the 10 by 10 mask of ones and [dilation_ratio = 0.02] the
    product with the diagonal rounds to 0, the computed dilation is 1, and
    [mask_to_boundary] returns the perimeter ring of width one: the 8 by 8
    block inside is zero and every pixel of the first and last row and
    column is one. *)
Theorem square_mask_perimeter_ring :
  py_round (default_dilation_ratio * np_sqrt (10 ^ 2 + 10 ^ 2))%float = Ok 0
  ∧ dilation_of 10 10 default_dilation_ratio = Ok 1
  ∧ mask_to_boundary (np_ones 10 10) default_dilation_ratio
    = Ok (perimeter_ring 10 10)
  ∧ slice2 (perimeter_ring 10 10) 1 9 1 9
    = NdArray 8 8 (replicate 8 (replicate 8 0))
  ∧ ∀ i j, (i < 10)%nat → (j < 10)%nat →
      pixel (perimeter_ring 10 10) i j
      = Some (if decide (1 ≤ i ≤ 8 ∧ 1 ≤ j ≤ 8)%nat then 0 else 1).
Proof.
  split_and!; [by vm_compute..|].
  intros i j Hi Hj. rewrite pixel_perimeter_ring, decide_True by done.
  f_equal. case_decide as Hin.
  - destruct Hin as [[? ?] [? ?]].
    by rewrite !(proj2 (Nat.ltb_lt _ _)) by lia.
  - destruct (0 <? i)%nat eqn:H1, (i <? 10 - 1)%nat eqn:H2,
      (0 <? j)%nat eqn:H3, (j <? 10 - 1)%nat eqn:H4; simpl; try done.
    apply Nat.ltb_lt in H1, H2, H3, H4. simpl in *. lia.
Qed.

End boundary.

(** ** Splitting a sequence into shards *)

(** [np.cumsum]: the running sums. *)
Fixpoint cumsum_from (acc : nat) (l : list nat) : list nat :=
  match l with
  | [] => []
  | x :: l => (acc + x)%nat :: cumsum_from (acc + x) l
  end.

Definition cumsum (l : list nat) : list nat := cumsum_from 0 l.

(** [np.array_split(ary, indices_or_sections)] along axis 0, for an integer
    number of sections. *)
Definition array_split {A} (ary : list A) (indices_or_sections : Z)
    : result (list (list A)) :=
  let Ntotal := length ary in
  if indices_or_sections <=? 0 then
    Raise (ValueError "number sections must be larger than 0.")
  else
    let Nsections := Z.to_nat indices_or_sections in
    let Neach_section := (Ntotal / Nsections)%nat in
    let extras := (Ntotal mod Nsections)%nat in
    let section_sizes :=
      [0%nat] ++ replicate extras (Neach_section + 1)%nat
              ++ replicate (Nsections - extras) Neach_section in
    let div_points := cumsum section_sizes in
    Ok ((λ i, slice ary (div_points !!! i) (div_points !!! (i + 1)%nat))
        <$> seq 0 Nsections).

(** The sizes [array_split] gives its sections: the first
    [Ntotal mod Nsections] hold one element more. *)
Definition shard_sizes (Ntotal Nsections : nat) : list nat :=
  replicate (Ntotal mod Nsections) (Ntotal / Nsections + 1)%nat
  ++ replicate (Nsections - Ntotal mod Nsections) (Ntotal / Nsections)%nat.

Section array_split.
Context {A : Type}.
Implicit Types (ary : list A) (szs : list nat).

Lemma slices_reshape ary szs (st : nat) :
  (λ i, slice ary ((st :: cumsum_from st szs) !!! i)
                  ((st :: cumsum_from st szs) !!! (i + 1)%nat))
    <$> seq 0 (length szs)
  = reshape szs (drop st ary).
Proof.
  revert st. induction szs as [|sz szs IH]; intros st; simpl; [done|].
  f_equal.
  - unfold slice. f_equal. lia.
  - rewrite <- fmap_S_seq, <- list_fmap_compose, drop_drop, <- IH.
    apply list_fmap_ext. intros _ i _. simpl. done.
Qed.

Lemma sum_shard_sizes (Ntotal Nsections : nat) :
  (0 < Nsections)%nat → sum_list (shard_sizes Ntotal Nsections) = Ntotal.
Proof.
  intros Hpos. unfold shard_sizes.
  rewrite sum_list_with_app, !sum_list_replicate.
  pose proof (Nat.div_mod_eq Ntotal Nsections).
  pose proof (Nat.mod_upper_bound Ntotal Nsections). nia.
Qed.

Lemma length_shard_sizes (Ntotal Nsections : nat) :
  (0 < Nsections)%nat → length (shard_sizes Ntotal Nsections) = Nsections.
Proof.
  intros Hpos. unfold shard_sizes.
  rewrite length_app, !length_replicate.
  pose proof (Nat.mod_upper_bound Ntotal Nsections). lia.
Qed.

Lemma lookup_shard_sizes (Ntotal Nsections i : nat) :
  (i < Nsections)%nat →
  shard_sizes Ntotal Nsections !! i
  = Some (Ntotal / Nsections
          + (if decide (i < Ntotal mod Nsections)%nat then 1 else 0))%nat.
Proof.
  intros Hi. unfold shard_sizes.
  pose proof (Nat.mod_upper_bound Ntotal Nsections).
  case_decide.
  - rewrite lookup_app_l by (rewrite length_replicate; lia).
    by rewrite lookup_replicate_2 by lia.
  - rewrite lookup_app_r by (rewrite length_replicate; lia).
    rewrite length_replicate, lookup_replicate_2 by lia. f_equal. lia.
Qed.

(** With a positive number of sections [array_split] cuts the sequence
    into consecutive pieces of the sizes above. *)
Lemma array_split_reshape ary (Nsections : Z) :
  0 < Nsections →
  array_split ary Nsections
  = Ok (reshape (shard_sizes (length ary) (Z.to_nat Nsections)) ary).
Proof.
  intros Hpos. unfold array_split.
  rewrite (proj2 (Z.leb_gt _ _)) by lia. f_equal.
  rewrite <- (drop_0 ary) at 2.
  rewrite <- slices_reshape, length_shard_sizes by lia.
  done.
Qed.

Lemma array_split_nonpositive ary (Nsections : Z) :
  Nsections ≤ 0 →
  array_split ary Nsections
  = Raise (ValueError "number sections must be larger than 0.").
Proof. intros Hle. unfold array_split. by rewrite (proj2 (Z.leb_le _ _)). Qed.

Lemma reshape_lookup_length ary szs i sz :
  sum_list szs = length ary → szs !! i = Some sz →
  ∃ shard, reshape szs ary !! i = Some shard ∧ length shard = sz.
Proof.
  revert ary i. induction szs as [|sz' szs IH]; intros ary i Hsum Hsz; [done|].
  simpl in Hsum. destruct i as [|i]; simpl in *.
  - injection Hsz as ->. eexists. split; [done|]. rewrite length_take. lia.
  - apply IH; [|done]. rewrite length_drop. lia.
Qed.

End array_split.

(** ** Strings and paths *)

(** [s.rfind(c)]: the last position of [c] in [s], or [-1]. *)
Fixpoint rfind (s : string) (c : ascii) : Z :=
  match s with
  | EmptyString => -1
  | String a s' =>
      let r := rfind s' c in
      if r =? -1 then (if Ascii.eqb a c then 0 else -1) else r + 1
  end.

(** [s[:n]] and [s[n:]] *)
Fixpoint str_take (n : nat) (s : string) : string :=
  match n, s with
  | S n, String a s' => String a (str_take n s')
  | _, _ => EmptyString
  end.

Fixpoint str_drop (n : nat) (s : string) : string :=
  match n, s with
  | S n, String a s' => str_drop n s'
  | _, _ => s
  end.

(** [c in s] *)
Fixpoint contains (c : ascii) (s : string) : bool :=
  match s with
  | EmptyString => false
  | String a s' => Ascii.eqb a c || contains c s'
  end.

(** [s.split(sep)] for a one-character separator. *)
Fixpoint split_on (sep : ascii) (s : string) : list string :=
  match s with
  | EmptyString => [EmptyString]
  | String a s' =>
      if Ascii.eqb a sep then EmptyString :: split_on sep s'
      else match split_on sep s' with
           | part :: parts => String a part :: parts
           | [] => [String a EmptyString]
           end
  end.

(** An absolute [pathlib] path on a POSIX system, as the list of its
    components below the root. *)
Abbreviation path := (list string).

(** [p.name]: the last component, empty for the root. *)
Definition path_name (p : path) : string := default EmptyString (last p).

(** [p.parent]: the root is its own parent. *)
Definition path_parent (p : path) : path := removelast p.

(** [p.suffix] and [p.stem]: the name is cut at its last dot, unless that
    dot starts or ends the name. *)
Definition path_suffix (p : path) : string :=
  let name := path_name p in
  let i := rfind name "." in
  if (0 <? i) && (i <? Z.of_nat (String.length name) - 1)
  then str_drop (Z.to_nat i) name else EmptyString.

Definition path_stem (p : path) : string :=
  let name := path_name p in
  let i := rfind name "." in
  if (0 <? i) && (i <? Z.of_nat (String.length name) - 1)
  then str_take (Z.to_nat i) name else name.

(** The components [pathlib] reads from a string: the pieces between the
    slashes, without the empty ones and the single dots. *)
Definition parse_parts (s : string) : list string :=
  filter (λ part, part ≠ EmptyString ∧ part ≠ "."%string) (split_on "/" s).

(** [p / s]: a string that starts with a slash replaces the path. *)
Definition truediv (p : path) (s : string) : path :=
  match s with
  | String "/" _ => parse_parts s
  | _ => p ++ parse_parts s
  end.

(** Line 123. *)
Definition new_annotation_file (annotation_file : path) (stem_addon : string)
    : path :=
  truediv (path_parent annotation_file)
    (path_stem annotation_file +:+ stem_addon +:+ path_suffix annotation_file).

(** A component of a resolved path: not empty, not a single dot, without a
    slash. *)
Definition is_component (s : string) : Prop :=
  s ≠ EmptyString ∧ s ≠ "."%string ∧ contains "/" s = false.

Section paths.
Implicit Types (s t : string) (p : path) (n : nat).

Lemma string_app_cons a s t : String a s +:+ t = String a (s +:+ t).
Proof. done. Qed.

Lemma string_app_nil_r s : s +:+ EmptyString = s.
Proof.
  induction s as [|a s IH]; [done|]. by rewrite string_app_cons, IH.
Qed.

Lemma str_take_drop n s : str_take n s +:+ str_drop n s = s.
Proof.
  revert s. induction n as [|n IH]; intros [|a s]; simpl; [done..|].
  by rewrite string_app_cons, IH.
Qed.

Lemma stem_suffix p : path_stem p +:+ path_suffix p = path_name p.
Proof.
  unfold path_stem, path_suffix. destruct (_ && _).
  - apply str_take_drop.
  - apply string_app_nil_r.
Qed.

Lemma string_app_length s t :
  String.length (s +:+ t) = (String.length s + String.length t)%nat.
Proof.
  induction s as [|a s IH]; [done|].
  rewrite string_app_cons. simpl. by rewrite IH.
Qed.

Lemma contains_app c s t :
  contains c (s +:+ t) = contains c s || contains c t.
Proof.
  induction s as [|a s IH]; [done|].
  rewrite string_app_cons. simpl. rewrite IH. by rewrite orb_assoc.
Qed.

Lemma split_on_absent c s : contains c s = false → split_on c s = [s].
Proof.
  induction s as [|a s IH]; simpl; [done|].
  intros [Ha Hs]%orb_false_iff. rewrite Ha, (IH Hs). done.
Qed.

Lemma parse_parts_component s : is_component s → parse_parts s = [s].
Proof.
  intros (Hne & Hdot & Hslash). unfold parse_parts.
  rewrite split_on_absent by done.
  by rewrite filter_cons_True.
Qed.

Lemma truediv_component p s : is_component s → truediv p s = p ++ [s].
Proof.
  intros Hs. unfold truediv. rewrite parse_parts_component by done.
  destruct s as [|a s]; [done|].
  destruct Hs as (_ & _ & Hslash). simpl in Hslash.
  apply orb_false_iff in Hslash as [Ha _].
  destruct (Ascii.eqb_spec a "/") as [->|Hne]; [done|].
  destruct a as [[] [] [] [] [] [] [] []]; done.
Qed.

Lemma path_parent_name p : p ≠ [] → path_parent p ++ [path_name p] = p.
Proof.
  intros Hp. unfold path_parent, path_name.
  destruct (exists_last Hp) as (q & a & ->).
  by rewrite removelast_last, last_snoc.
Qed.

Lemma path_parent_snoc p s : path_parent (p ++ [s]) = p.
Proof. apply removelast_last. Qed.

(** The name line 123 builds is a component when the suffix has no slash,
    and it is longer than the old name when the suffix is not empty. *)
Lemma new_name_component p stem_addon :
  is_component (path_name p) → contains "/" stem_addon = false →
  stem_addon ≠ EmptyString →
  is_component (path_stem p +:+ stem_addon +:+ path_suffix p).
Proof.
  intros (Hne & Hdot & Hslash) Haddon Hnonempty.
  assert (String.length (path_stem p +:+ stem_addon +:+ path_suffix p)
          = String.length (path_name p) + String.length stem_addon)%nat as Hlen.
  { rewrite <- (stem_suffix p), !string_app_length. lia. }
  assert (0 < String.length (path_name p))%nat
    by (destruct (path_name p); [done|simpl; lia]).
  assert (0 < String.length stem_addon)%nat
    by (destruct stem_addon; [done|simpl; lia]).
  split_and!.
  - intros Heq. rewrite Heq in Hlen. simpl in Hlen. lia.
  - intros Heq. rewrite Heq in Hlen. simpl in Hlen. lia.
  - rewrite <- (stem_suffix p), contains_app in Hslash.
    apply orb_false_iff in Hslash as [H1 H2].
    by rewrite !contains_app, H1, Haddon, H2.
Qed.

End paths.

(** ** The augmentation pipeline *)

(** What the functions print, in order.  The elapsed time in the last
    message is left out. *)
Inductive message : Type :=
| Found_existing_boundaries
| Adding_boundary
| Number_of_cores (cpu_num : Z) (annotations_per_core : nat)
| Boundary_added
| Saved_as (name : string).

Section pipeline.
Context {memory : Memory}.

(** The values stored in an annotation, and [mask_utils.encode] with the
    conversions of line 45 around it: the RLE of a boundary mask. *)
Context {Val : Type}.
Variable rle_encode : ndarray → Val.

Abbreviation annotation := (gmap string Val).

(** The mask provider, [coco.annToMask]. *)
Variable ann_to_mask : annotation → result ndarray.

(** [multiprocessing.cpu_count()] *)
Variable cpu_count : positive.

(** Lines 40 to 45: the body of the loop over a shard. *)
Definition augment_annotation (dilation_ratio : float) (ann : annotation)
    : result annotation :=
  mask ← ann_to_mask ann;
  boundary ← mask_to_boundary mask dilation_ratio;
  Ok (<["boundary" := rle_encode boundary]> ann).

(** The loop of lines 39 to 46, with the annotations handed to the mask
    provider so far. *)
Fixpoint single_core_loop (dilation_ratio : float)
    (annotations new_annotations provider_calls : list annotation)
    : list annotation * result (list annotation) :=
  match annotations with
  | [] => (provider_calls, Ok new_annotations)
  | ann :: annotations =>
      match augment_annotation dilation_ratio ann with
      | Ok ann' =>
          single_core_loop dilation_ratio annotations
            (new_annotations ++ [ann']) (provider_calls ++ [ann])
      | Raise e => (provider_calls ++ [ann], Raise e)
      end
  end.

(** Returns the calls of the mask provider and the new annotations.  The
    Python function stores each boundary in the dict it was handed and
    returns these dicts; a caller in the same process sees its dicts
    updated, a worker process updates the copies it received. *)
Definition augment_annotations_with_boundary_single_core (proc_id : nat)
    (annotations : list annotation) (dilation_ratio : float)
    : list annotation * result (list annotation) :=
  single_core_loop dilation_ratio annotations [] [].

(** Lines 63 to 65 and 93 to 95: [p.get()] returns the result of a worker
    or raises what the worker raised. *)
Fixpoint gather (processes : list (result (list annotation)))
    (new_annotations : list annotation) : result (list annotation) :=
  match processes with
  | [] => Ok new_annotations
  | p :: processes =>
      r ← p; gather processes (new_annotations ++ r)
  end.

(** Lines 55 to 65 and 85 to 95: each shard goes to a worker process, which
    runs the single-core function on its own copy of the shard; the results
    are collected in the order of submission.  Returns the provider calls of
    every worker and the collected annotations. *)
Definition submit_and_gather (annotations_split : list (list annotation))
    (dilation_ratio : float)
    : list (list annotation) * result (list annotation) :=
  let processes :=
    imap (λ proc_id annotation_set,
      augment_annotations_with_boundary_single_core proc_id annotation_set
        dilation_ratio) annotations_split in
  (fst <$> processes, gather (snd <$> processes) []).

(** What a call did besides returning. *)
Record effects (S : Type) : Type := Effects {
  printed : list message;
  provider_calls : list (list annotation);
  writes : list S
}.
Arguments Effects {S} _ _ _.
Arguments printed {S} _.
Arguments provider_calls {S} _.
Arguments writes {S} _.

Definition augment_annotations_with_boundary_multi_core
    (annotations : list annotation) (dilation_ratio : float)
    : effects Empty_set * result (list annotation) :=
  let cpu_num := Z.pos cpu_count in
  match array_split annotations cpu_num with
  | Raise e => (Effects [] [] [], Raise e)
  | Ok annotations_split =>
      match annotations_split !! 0%nat with
      | None => (Effects [] [] [], Raise (IndexError "list index out of range"))
      | Some first =>
          let '(calls, new_annotations) :=
            submit_and_gather annotations_split dilation_ratio in
          (Effects [Number_of_cores cpu_num (length first)] calls [],
           new_annotations)
      end
  end.

(** *** The dataset *)

(** The index of a dataset and [createIndex], which rebuilds it from the
    annotations. *)
Context {Index : Type}.
Variable createIndex : list annotation → Index.

(** The part of a [COCO] object the functions touch: the flag, the list
    [coco.dataset["annotations"]] and the index. *)
Record COCO : Type := Coco {
  get_boundary : bool;
  dataset_annotations : list annotation;
  index : Index
}.

(** The assignments of lines 100 to 102. *)
Inductive mutation : Type :=
| Set_annotations (new_annotations : list annotation)
| Create_index
| Set_get_boundary (flag : bool).

Definition mutate (coco : COCO) (m : mutation) : COCO :=
  match m with
  | Set_annotations l => Coco (get_boundary coco) l (index coco)
  | Create_index =>
      Coco (get_boundary coco) (dataset_annotations coco)
           (createIndex (dataset_annotations coco))
  | Set_get_boundary b => Coco b (dataset_annotations coco) (index coco)
  end.

(** The dataset after a call. *)
Definition after (coco : COCO) (e : effects mutation) : COCO :=
  foldl mutate coco (writes e).

Definition add_boundary_multi_core (coco : COCO) (cpu_num : Z)
    (dilation_ratio : float) : effects mutation * result () :=
  if get_boundary coco then
    (Effects [Found_existing_boundaries] [] [], Ok ())
  else
    let cpu_num := Z.min cpu_num (Z.pos cpu_count) in
    let annotations := dataset_annotations coco in
    match array_split annotations cpu_num with
    | Raise e => (Effects [Adding_boundary] [] [], Raise e)
    | Ok annotations_split =>
        match annotations_split !! 0%nat with
        | None =>
            (Effects [Adding_boundary] [] [],
             Raise (IndexError "list index out of range"))
        | Some first =>
            let cores := Number_of_cores cpu_num (length first) in
            match submit_and_gather annotations_split dilation_ratio with
            | (calls, Raise e) =>
                (Effects [Adding_boundary; cores] calls [], Raise e)
            | (calls, Ok new_annotations) =>
                (Effects [Adding_boundary; cores; Boundary_added] calls
                   [Set_annotations new_annotations; Create_index;
                    Set_get_boundary true],
                 Ok ())
            end
        end
    end.

(** *** The file-level wrapper *)

(** The default arguments [cpu_num=16] and [stem_addon='_b']. *)
Definition default_cpu_num : Z := 16.
Definition default_stem_addon : string := "_b".

(** A parsed JSON document, the [COCO] constructor applied to one,
    [coco.anns.values()], the assignment of line 121, and the decoding of
    the [counts] of a boundary. *)
Context {Json : Type}.
Variable COCO_init : Json → result COCO.
Variable anns_values : Index → list annotation.
Variable set_annotations : Json → list annotation → Json.
Variable decode_counts : Val → result Val.

(** Lines 119 and 120. *)
Fixpoint decode_boundaries (anns_b : list annotation)
    : result (list annotation) :=
  match anns_b with
  | [] => Ok []
  | a :: anns_b =>
      match a !! "boundary" with
      | None => Raise (KeyError "boundary")
      | Some boundary =>
          boundary' ← decode_counts boundary;
          anns_b' ← decode_boundaries anns_b;
          Ok (<["boundary" := boundary']> a :: anns_b')
      end
  end.

(** The files are a map from resolved paths to documents; the argument
    [annotation_file] is the path line 110 has expanded and resolved.
    Returns the files after the call and what was printed.  The map has no
    directories of its own: line 124 is a write that succeeds, as [open]
    does in a directory that exists, which the directory of the annotation
    file does.  A [stem_addon] with a slash puts the new path elsewhere;
    the properties of the written file below are stated without one. *)
Definition coco_add_boundaries_and_save_as_annotation_file
    (files : gmap path Json) (annotation_file : path) (stem_addon : string)
    : gmap path Json * list message * result () :=
  match files !! annotation_file with
  | None => (files, [], Raise FileNotFoundError)
  | Some content =>
      match COCO_init content with
      | Raise e => (files, [], Raise e)
      | Ok coco =>
          let call :=
            add_boundary_multi_core coco default_cpu_num
              default_dilation_ratio in
          match call.2 with
          | Raise e => (files, printed call.1, Raise e)
          | Ok _ =>
              let coco := after coco call.1 in
              let coco_json := content in
              match decode_boundaries (anns_values (index coco)) with
              | Raise e => (files, printed call.1, Raise e)
              | Ok anns_b =>
                  let coco_json := set_annotations coco_json anns_b in
                  let new_annotation_file :=
                    new_annotation_file annotation_file stem_addon in
                  (<[new_annotation_file := coco_json]> files,
                   printed call.1 ++ [Saved_as (path_name new_annotation_file)],
                   Ok ())
              end
          end
      end
  end.

(** What the specification promises of the wrapper, for one call: the new
    file is named by stem, suffix and extension and lies beside the
    original, a call that returns has written that file and no other, and
    the original file is as before. *)
Definition writes_new_file_beside (files : gmap path Json)
    (annotation_file : path) (stem_addon : string) : Prop :=
  let new_file := new_annotation_file annotation_file stem_addon in
  let run :=
    coco_add_boundaries_and_save_as_annotation_file files annotation_file
      stem_addon in
  new_file
  = path_parent annotation_file
    ++ [path_stem annotation_file +:+ stem_addon +:+ path_suffix annotation_file]
  ∧ path_parent new_file = path_parent annotation_file
  ∧ match run.2 with
    | Ok _ => ∃ document, run.1.1 = <[new_file := document]> files
    | Raise _ => run.1.1 = files
    end
  ∧ run.1.1 !! annotation_file = files !! annotation_file.

(** *** The loop over a shard *)

(** The new annotations a shard yields. *)
Definition shard_result (dilation_ratio : float)
    (annotations : list annotation) : result (list annotation) :=
  (augment_annotations_with_boundary_single_core 0 annotations
     dilation_ratio).2.
#[local] Arguments shard_result : simpl never.

Implicit Types (ann : annotation) (annotations out : list annotation).
Implicit Types (shards : list (list annotation)) (ratio : float).

Lemma single_core_loop_acc ratio annotations acc calls :
  (single_core_loop ratio annotations acc calls).2
  = out ← shard_result ratio annotations; Ok (acc ++ out).
Proof.
  unfold shard_result, augment_annotations_with_boundary_single_core.
  revert acc calls. induction annotations as [|ann annotations IH];
    intros acc calls; simpl.
  - by rewrite app_nil_r.
  - destruct (augment_annotation ratio ann) as [ann'|e]; simpl; [|done].
    rewrite (IH (acc ++ [ann'])), (IH [ann']).
    destruct (single_core_loop ratio annotations [] []).2; simpl; [|done].
    by rewrite <- app_assoc.
Qed.

Lemma shard_result_nil ratio : shard_result ratio [] = Ok [].
Proof. done. Qed.

Lemma shard_result_cons ratio ann annotations :
  shard_result ratio (ann :: annotations)
  = ann' ← augment_annotation ratio ann;
    out ← shard_result ratio annotations; Ok (ann' :: out).
Proof.
  unfold shard_result at 1.
  unfold augment_annotations_with_boundary_single_core. simpl.
  destruct (augment_annotation ratio ann) as [ann'|e]; simpl; [|done].
  by rewrite single_core_loop_acc.
Qed.

Lemma shard_result_app ratio annotations1 annotations2 :
  shard_result ratio (annotations1 ++ annotations2)
  = out1 ← shard_result ratio annotations1;
    out2 ← shard_result ratio annotations2; Ok (out1 ++ out2).
Proof.
  induction annotations1 as [|ann annotations1 IH]; simpl.
  - by destruct (shard_result ratio annotations2).
  - rewrite !shard_result_cons.
    destruct (augment_annotation ratio ann) as [ann'|e]; simpl; [|done].
    rewrite IH. destruct (shard_result ratio annotations1); simpl; [|done].
    by destruct (shard_result ratio annotations2).
Qed.

(** A shard succeeds exactly when every annotation of it does, and then
    the new annotations stand in the order of the old ones. *)
Lemma shard_result_Ok ratio annotations out :
  shard_result ratio annotations = Ok out
  ↔ Forall2 (λ ann ann', augment_annotation ratio ann = Ok ann')
      annotations out.
Proof.
  revert out. induction annotations as [|ann annotations IH]; intros out.
  - rewrite shard_result_nil. split.
    + intros [= <-]. constructor.
    + by intros ->%Forall2_nil_inv_l.
  - rewrite shard_result_cons. split.
    + destruct (augment_annotation ratio ann) as [ann'|e] eqn:Hann;
        simpl; [|done].
      destruct (shard_result ratio annotations) as [out'|e]; simpl; [|done].
      intros [= <-]. constructor; [done|]. by apply IH.
    + intros (ann' & out' & Hann & Hout & ->)%Forall2_cons_inv_l.
      apply IH in Hout. by rewrite Hann, Hout.
Qed.

(** One failing annotation makes its shard fail. *)
Lemma shard_result_Raise ratio annotations ann e :
  ann ∈ annotations → augment_annotation ratio ann = Raise e →
  ∃ e', shard_result ratio annotations = Raise e'.
Proof.
  intros Hin Hann. induction Hin as [ann annotations|ann ann0 annotations _ IH];
    rewrite shard_result_cons.
  - rewrite Hann. by eexists.
  - destruct (augment_annotation ratio ann0); simpl; [|by eexists].
    destruct (IH Hann) as [e' ->]. by eexists.
Qed.

(** *** Fan-out and fan-in *)

Lemma gather_shards ratio shards acc :
  gather (shard_result ratio <$> shards) acc
  = out ← shard_result ratio (mjoin shards); Ok (acc ++ out).
Proof.
  revert acc. induction shards as [|shard shards IH]; intros acc; simpl.
  - by rewrite app_nil_r.
  - rewrite shard_result_app.
    destruct (shard_result ratio shard) as [out1|e]; simpl; [|done].
    rewrite IH.
    destruct (shard_result ratio (mjoin shards)); simpl; [|done].
    by rewrite <- app_assoc.
Qed.

(** Collecting the workers' results in submission order gives what one
    pass over the concatenated shards gives. *)
Lemma submit_and_gather_result ratio shards :
  (submit_and_gather shards ratio).2 = shard_result ratio (mjoin shards).
Proof.
  unfold submit_and_gather. simpl.
  rewrite fmap_imap.
  rewrite (imap_ext _ (const (shard_result ratio))) by done.
  rewrite imap_const, gather_shards.
  by destruct (shard_result ratio (mjoin shards)).
Qed.

Lemma array_split_join annotations (W : Z) :
  0 < W →
  ∃ shards, array_split annotations W = Ok shards
            ∧ length shards = Z.to_nat W
            ∧ mjoin shards = annotations.
Proof.
  intros HW. rewrite array_split_reshape by done. eexists. split; [done|].
  split.
  - rewrite length_reshape, length_shard_sizes; lia.
  - apply join_reshape, sum_shard_sizes. lia.
Qed.

(** *** The dataset mutator *)

Implicit Types (coco : COCO) (cpu_num : Z).

(** The four ways a call of [add_boundary_multi_core] can go. *)
Inductive add_boundary_case coco cpu_num ratio
    : effects mutation → result () → Prop :=
| Skipped :
    get_boundary coco = true →
    add_boundary_case coco cpu_num ratio
      (Effects [Found_existing_boundaries] [] []) (Ok ())
| No_sections :
    get_boundary coco = false → cpu_num ≤ 0 →
    add_boundary_case coco cpu_num ratio
      (Effects [Adding_boundary] [] [])
      (Raise (ValueError "number sections must be larger than 0."))
| Worker_failed cores calls e :
    get_boundary coco = false → 0 < cpu_num →
    shard_result ratio (dataset_annotations coco) = Raise e →
    add_boundary_case coco cpu_num ratio
      (Effects [Adding_boundary; cores] calls []) (Raise e)
| Augmented cores calls new_annotations :
    get_boundary coco = false → 0 < cpu_num →
    shard_result ratio (dataset_annotations coco) = Ok new_annotations →
    add_boundary_case coco cpu_num ratio
      (Effects [Adding_boundary; cores; Boundary_added] calls
         [Set_annotations new_annotations; Create_index;
          Set_get_boundary true])
      (Ok ()).

Lemma add_boundary_multi_core_cases coco cpu_num ratio :
  add_boundary_case coco cpu_num ratio
    (add_boundary_multi_core coco cpu_num ratio).1
    (add_boundary_multi_core coco cpu_num ratio).2.
Proof.
  unfold add_boundary_multi_core.
  destruct (get_boundary coco) eqn:Hflag; [by constructor|].
  destruct (decide (cpu_num ≤ 0)) as [Hle|Hgt].
  { rewrite array_split_nonpositive by lia. by constructor. }
  destruct (array_split_join (dataset_annotations coco)
    (cpu_num `min` Z.pos cpu_count)) as (shards & -> & Hlen & Hjoin); [lia|].
  destruct (lookup_lt_is_Some_2 shards 0) as [first ->]; [lia|].
  pose proof (submit_and_gather_result ratio shards) as Hres.
  rewrite Hjoin in Hres.
  destruct (submit_and_gather shards ratio) as [calls [new_annotations|e]];
    simpl in *; constructor; (done || lia).
Qed.

Lemma after_no_writes coco (e : effects mutation) :
  writes e = [] → after coco e = coco.
Proof. unfold after. by intros ->. Qed.

Lemma after_augmented coco (e : effects mutation) new_annotations :
  writes e = [Set_annotations new_annotations; Create_index;
              Set_get_boundary true] →
  after coco e = Coco true new_annotations (createIndex new_annotations).
Proof. unfold after. by intros ->. Qed.

Lemma augment_annotation_insert ratio ann ann' :
  augment_annotation ratio ann = Ok ann' →
  ∃ mask boundary,
    ann_to_mask ann = Ok mask
    ∧ mask_to_boundary mask ratio = Ok boundary
    ∧ ann' = <["boundary" := rle_encode boundary]> ann.
Proof.
  unfold augment_annotation.
  destruct (ann_to_mask ann) as [mask|]; simpl; [|done].
  destruct (mask_to_boundary mask ratio) as [boundary|] eqn:Hb; simpl;
    [|done].
  intros [= <-]. by exists mask, boundary.
Qed.

(** *** Sequential and parallel processing *)

(** C2.  For every annotation sequence, one sequential pass of
    [augment_annotations_with_boundary_single_core] over the whole sequence
    returns what the multi-core path returns, for every positive number of
    workers: the same new annotations in the same order, or the same
    exception.  This holds for the shards of any worker count, for
    [augment_annotations_with_boundary_multi_core], and for the annotations
    [add_boundary_multi_core] stores in the dataset. *)
Theorem sequential_equals_parallel annotations ratio (worker_count cpu_num : Z)
    coco :
  0 < worker_count → 0 < cpu_num →
  get_boundary coco = false → dataset_annotations coco = annotations →
  let sequential :=
    (augment_annotations_with_boundary_single_core 0 annotations ratio).2 in
  (∃ shards, array_split annotations worker_count = Ok shards
             ∧ (submit_and_gather shards ratio).2 = sequential)
  ∧ (augment_annotations_with_boundary_multi_core annotations ratio).2
    = sequential
  ∧ match sequential with
    | Ok new_annotations =>
        (add_boundary_multi_core coco cpu_num ratio).2 = Ok ()
        ∧ dataset_annotations
            (after coco (add_boundary_multi_core coco cpu_num ratio).1)
          = new_annotations
    | Raise e => (add_boundary_multi_core coco cpu_num ratio).2 = Raise e
    end.
Proof.
  intros HW Hcpu Hflag Hanns sequential.
  change sequential with (shard_result ratio annotations). split_and!.
  - destruct (array_split_join annotations worker_count HW)
      as (shards & Hsplit & _ & Hjoin).
    exists shards. split; [done|].
    by rewrite submit_and_gather_result, Hjoin.
  - unfold augment_annotations_with_boundary_multi_core.
    destruct (array_split_join annotations (Z.pos cpu_count))
      as (shards & -> & Hlen & Hjoin); [lia|].
    destruct (lookup_lt_is_Some_2 shards 0) as [first ->]; [lia|].
    pose proof (submit_and_gather_result ratio shards) as Hres.
    rewrite Hjoin in Hres.
    by destruct (submit_and_gather shards ratio).
  - destruct (add_boundary_multi_core_cases coco cpu_num ratio)
      as [Hskip|? ?|cores calls e _ _ Hfail|cores calls new _ _ Hnew].
    + congruence.
    + lia.
    + rewrite Hanns in Hfail. by rewrite Hfail.
    + rewrite Hanns in Hnew. rewrite Hnew. split; [done|].
      by erewrite after_augmented.
Qed.

(** *** Order and completeness of the shards *)

(** C3.  For [N] annotations and a worker count [W] with [1 ≤ W ≤ N],
    [array_split] gives [W] shards, the shard at position [i] holding
    [N / W] annotations and one more when [i < N mod W]; the sizes add up
    to [N] and the shards joined in order are the input, so nothing is
    dropped or repeated.  The workers' results collected in the order of
    submission are then, position by position, the augmented input: the
    output has the length and the order of the input. *)
Theorem shards_preserve_order annotations ratio (W : Z) :
  0 < W → W ≤ Z.of_nat (length annotations) →
  let N := length annotations in
  ∃ shards,
    array_split annotations W = Ok shards
    ∧ length shards = Z.to_nat W
    ∧ (∀ i, (i < Z.to_nat W)%nat →
         ∃ shard, shards !! i = Some shard
           ∧ length shard
             = (N / Z.to_nat W
                + if decide (i < N mod Z.to_nat W)%nat then 1 else 0)%nat)
    ∧ sum_list (length <$> shards) = N
    ∧ mjoin shards = annotations
    ∧ ∀ out,
        ((submit_and_gather shards ratio).2 = Ok out
         ↔ Forall2 (λ ann ann', augment_annotation ratio ann = Ok ann')
             annotations out)
        ∧ ((submit_and_gather shards ratio).2 = Ok out →
           length out = N
           ∧ ∀ i ann', out !! i = Some ann' →
               ∃ ann, annotations !! i = Some ann
                      ∧ augment_annotation ratio ann = Ok ann').
Proof.
  intros HW _ N.
  destruct (array_split_join annotations W HW)
    as (shards & Hsplit & Hlen & Hjoin).
  exists shards. split_and!; try done.
  - intros i Hi. rewrite array_split_reshape in Hsplit by done.
    injection Hsplit as <-.
    apply reshape_lookup_length.
    + apply sum_shard_sizes. lia.
    + by apply lookup_shard_sizes.
  - by rewrite <- length_join, Hjoin.
  - intros out. rewrite submit_and_gather_result, Hjoin.
    split; [apply shard_result_Ok|].
    intros Hout%shard_result_Ok. split.
    + symmetry. by eapply Forall2_length.
    + intros i ann' Hi.
      destruct (Forall2_lookup_r _ _ _ _ _ Hout Hi) as (ann & Hann & Haug).
      by exists ann.
Qed.

(** *** The guard *)

(** C4.  When the flag of the dataset is already true, and so in
    particular when the dataset comes out of an earlier call that
    succeeded, [add_boundary_multi_core] returns at once: it prints the
    message that boundaries were found, hands no annotation to the mask
    provider, writes nothing, and the dataset afterwards, with its
    annotations, is the dataset before. *)
Theorem second_call_is_noop coco cpu_num ratio :
  get_boundary coco = true
  ∨ (∃ coco0 cpu_num0 ratio0,
       (add_boundary_multi_core coco0 cpu_num0 ratio0).2 = Ok ()
       ∧ coco = after coco0 (add_boundary_multi_core coco0 cpu_num0 ratio0).1) →
  let call := add_boundary_multi_core coco cpu_num ratio in
  get_boundary coco = true
  ∧ call = (Effects [Found_existing_boundaries] [] [], Ok ())
  ∧ provider_calls call.1 = []
  ∧ after coco call.1 = coco
  ∧ dataset_annotations (after coco call.1) = dataset_annotations coco.
Proof.
  intros Hfirst call.
  assert (get_boundary coco = true) as Hflag.
  { destruct Hfirst as [Hflag|(coco0 & cpu_num0 & ratio0 & Hret & ->)];
      [done|].
    destruct (add_boundary_multi_core_cases coco0 cpu_num0 ratio0)
      as [Hskip|? ?|cores calls e ? ? ?|cores calls new ? ? ?];
      done. }
  assert (call = (Effects [Found_existing_boundaries] [] [], Ok ())) as ->.
  { subst call. unfold add_boundary_multi_core. by rewrite Hflag. }
  done.
Qed.

(** *** Failure *)

(** C5.  When the processing of some annotation raises (the mask provider
    or the boundary extractor), [add_boundary_multi_core] raises, and a
    call that raises has written nothing: the flag is still false and the
    annotations and the index are those from before the call. *)
Theorem worker_failure_leaves_dataset coco cpu_num ratio ann e :
  get_boundary coco = false →
  ann ∈ dataset_annotations coco → augment_annotation ratio ann = Raise e →
  let call := add_boundary_multi_core coco cpu_num ratio in
  (∃ e', call.2 = Raise e')
  ∧ writes call.1 = []
  ∧ after coco call.1 = coco
  ∧ get_boundary (after coco call.1) = false.
Proof.
  intros Hflag Hin Hann call.
  destruct (shard_result_Raise ratio _ _ _ Hin Hann) as [e' He'].
  assert ((∃ e', call.2 = Raise e') ∧ writes call.1 = []) as [Hret Hw].
  { subst call.
    destruct (add_boundary_multi_core_cases coco cpu_num ratio)
      as [Hskip|? ?|cores calls e0 ? ? ?|cores calls new ? ? Hnew]; simpl.
    - congruence.
    - eauto.
    - eauto.
    - congruence. }
  split_and!; [done..| |].
  - by apply after_no_writes.
  - by rewrite after_no_writes.
Qed.

(** *** Degenerate sizes *)

Lemma shard_result_all_Ok ratio annotations :
  Forall (λ ann, is_Ok (augment_annotation ratio ann)) annotations →
  is_Ok (shard_result ratio annotations).
Proof.
  induction 1 as [|ann annotations [ann' Hann] _ [out Hout]].
  - by eexists.
  - rewrite shard_result_cons, Hann, Hout. by eexists.
Qed.

(** C10.  With more workers than annotations, and so in particular for an
    empty sequence, [array_split] still gives one shard per worker and the
    shards past the last annotation are empty.  If the augmentation of each
    annotation succeeds, collecting the workers' results succeeds with the
    input annotations, in order, each with the key ["boundary"] set and
    nothing else changed, and [add_boundary_multi_core] stores them,
    rebuilds the index and sets the flag; for an empty dataset it stores an
    empty collection and sets the flag. *)
Theorem more_workers_than_annotations annotations ratio (W : Z) :
  Z.of_nat (length annotations) < W →
  Forall (λ ann, is_Ok (augment_annotation ratio ann)) annotations →
  ∃ shards out,
    array_split annotations W = Ok shards
    ∧ length shards = Z.to_nat W
    ∧ (∀ i, (length annotations ≤ i < Z.to_nat W)%nat → shards !! i = Some [])
    ∧ (submit_and_gather shards ratio).2 = Ok out
    ∧ Forall2 (λ ann ann', ∃ v, ann' = <["boundary" := v]> ann
                                ∧ ∀ key, key ≠ "boundary" → ann' !! key = ann !! key)
        annotations out
    ∧ (annotations = [] → out = [])
    ∧ ∀ coco cpu_num,
        get_boundary coco = false → dataset_annotations coco = annotations →
        cpu_num `min` Z.pos cpu_count = W →
        (add_boundary_multi_core coco cpu_num ratio).2 = Ok ()
        ∧ after coco (add_boundary_multi_core coco cpu_num ratio).1
          = Coco true out (createIndex out).
Proof.
  intros HW [out Hout]%shard_result_all_Ok.
  assert (0 < W) as Hpos by lia.
  destruct (array_split_join annotations W Hpos)
    as (shards & Hsplit & Hlen & Hjoin).
  exists shards, out. split_and!; try done.
  - intros i [Hlo Hhi]. rewrite array_split_reshape in Hsplit by done.
    injection Hsplit as <-.
    destruct (reshape_lookup_length annotations
      (shard_sizes (length annotations) (Z.to_nat W)) i 0)
      as (shard & -> & ->%nil_length_inv); [|..|done].
    + apply sum_shard_sizes. lia.
    + rewrite lookup_shard_sizes by done.
      rewrite Nat.div_small, Nat.mod_small by lia.
      by rewrite decide_False by lia.
  - by rewrite submit_and_gather_result, Hjoin.
  - apply shard_result_Ok in Hout.
    eapply Forall2_impl; [exact Hout|]. simpl.
    intros ann ann' (mask & boundary & _ & _ & ->)%augment_annotation_insert.
    eexists. split; [done|]. intros key Hkey. by rewrite lookup_insert_ne.
  - intros ->. rewrite shard_result_nil in Hout. by injection Hout.
  - intros coco cpu_num Hflag Hanns Hmin.
    destruct (add_boundary_multi_core_cases coco cpu_num ratio)
      as [Hskip|? ?|cores calls e ? ? Hfail|cores calls new ? ? Hnew]; simpl.
    + congruence.
    + lia.
    + congruence.
    + rewrite Hanns, Hout in Hnew. injection Hnew as <-.
      split; [done|]. by apply after_augmented.
Qed.

(** *** The invariant of the dataset *)






Section invariant.

(** The mask provider reads the segmentation of an annotation, not its
    boundary. *)
Hypothesis ann_to_mask_ignores_boundary :
  ∀ ann v, ann_to_mask (<["boundary" := v]> ann) = ann_to_mask ann.






End invariant.

(** *** The file written by the wrapper *)

Lemma wrapper_writes files annotation_file stem_addon :
  let run :=
    coco_add_boundaries_and_save_as_annotation_file files annotation_file
      stem_addon in
  match run.2 with
  | Ok _ =>
      ∃ document,
        run.1.1
        = <[new_annotation_file annotation_file stem_addon := document]> files
  | Raise _ => run.1.1 = files
  end.
Proof.
  unfold coco_add_boundaries_and_save_as_annotation_file.
  destruct (files !! annotation_file) as [content|]; [|done].
  destruct (COCO_init content) as [coco|]; [|done].
  destruct (add_boundary_multi_core coco _ _).2; [|done].
  destruct (decode_boundaries _); [|done].
  simpl. by eexists.
Qed.

(** C6, amended.  For every resolved path of an annotation file and every
    suffix that is not empty and holds no slash, the wrapper names its
    output by the stem of the original, the suffix and the extension of the
    original, in the directory of the original; a call that returns has
    written that file and no other, a call that raises has written none,
    and the original file keeps its content. *)
Theorem saved_beside_original files annotation_file stem_addon :
  annotation_file ≠ [] → Forall is_component annotation_file →
  stem_addon ≠ EmptyString → contains "/" stem_addon = false →
  writes_new_file_beside files annotation_file stem_addon.
Proof.
  intros Hne Hcomps Haddon Hslash.
  assert (is_component (path_name annotation_file)) as Hname.
  { rewrite <- (path_parent_name annotation_file Hne) in Hcomps.
    by apply Forall_app in Hcomps as [_ [? _]%Forall_cons]. }
  pose proof (new_name_component _ _ Hname Hslash Haddon) as Hnew.
  assert (new_annotation_file annotation_file stem_addon
          = path_parent annotation_file
            ++ [path_stem annotation_file +:+ stem_addon
                +:+ path_suffix annotation_file]) as Hfile.
  { unfold new_annotation_file. by apply truediv_component. }
  assert (new_annotation_file annotation_file stem_addon ≠ annotation_file)
    as Hdiff.
  { rewrite Hfile. rewrite <- (path_parent_name annotation_file Hne) at 4.
    intros [= Heq]%(inj (app _)).
    apply (f_equal String.length) in Heq.
    rewrite <- (stem_suffix annotation_file) in Heq.
    rewrite !string_app_length in Heq.
    destruct stem_addon; [done|]. simpl in Heq. lia. }
  unfold writes_new_file_beside. split_and!.
  - done.
  - rewrite Hfile. apply path_parent_snoc.
  - apply wrapper_writes.
  - pose proof (wrapper_writes files annotation_file stem_addon) as Hrun.
    simpl in Hrun.
    destruct (coco_add_boundaries_and_save_as_annotation_file _ _ _).2.
    + destruct Hrun as [document ->]. by rewrite lookup_insert_ne.
    + by rewrite Hrun.
Qed.

End pipeline.

Arguments Effects {Val S} _ _ _.
Arguments printed {Val S} _.
Arguments provider_calls {Val S} _.
Arguments writes {Val S} _.

(** * Further properties of the code *)

(** ** The boundary is a band along the edge of the mask *)

(** Two indices are at most [n] apart. *)
Definition near (n i i' : nat) : Prop := (i ≤ i' + n ∧ i' ≤ i + n)%nat.

(** A pixel of the mask lies within [n] of the edge: the image border is
    less than [n] rows or columns away, or the mask has a background pixel
    at most [n] rows and [n] columns away. *)
Definition edge_within (n : nat) (mask : ndarray) (i j : nat) : Prop :=
  (i < n ∨ j < n ∨ rows mask ≤ i + n ∨ cols mask ≤ j + n)%nat
  ∨ ∃ i' j', near n i i' ∧ near n j j' ∧ pixel mask i' j' = Some 0.

(** The 3x3 kernel of line 28 as offsets. *)
Definition square_offsets : list (Z * Z) :=
  [(-1, -1); (-1, 0); (-1, 1); (0, -1); (0, 0); (0, 1); (1, -1); (1, 0); (1, 1)].

Section band.
Context {memory : Memory}.
Implicit Types (img mask : ndarray) (i j n : nat).

Lemma kernel_offsets_square : kernel_offsets (np_ones 3 3) = square_offsets.
Proof. reflexivity. Qed.

Lemma elem_of_square_offsets (d : Z * Z) :
  d ∈ square_offsets ↔ (-1 ≤ d.1 ≤ 1 ∧ -1 ≤ d.2 ≤ 1).
Proof.
  destruct d as [dy dx]. unfold square_offsets. simpl.
  rewrite !elem_of_cons, elem_of_nil. split.
  - intros H. repeat destruct H as [H|H]; try done; simplify_eq; lia.
  - intros [Hy Hx].
    assert (dy = -1 ∨ dy = 0 ∨ dy = 1) as Hdy by lia.
    assert (dx = -1 ∨ dx = 0 ∨ dx = 1) as Hdx by lia.
    destruct Hdy as [-> | [-> | ->]], Hdx as [-> | [-> | ->]]; tauto.
Qed.

Lemma foldr_min_zero (l : list Z) :
  Forall (λ x, 0 ≤ x) l → foldr Z.min 255 l = 0 ↔ 0 ∈ l.
Proof.
  intros Hl. split.
  - intros H0. destruct (foldr_min_cases 255 l) as [H|H]; [lia|].
    by rewrite H0 in H.
  - intros Hin. pose proof (foldr_min_le 255 0 l Hin).
    assert (0 ≤ foldr Z.min 255 l); [|lia].
    clear Hin H. induction Hl; simpl; lia.
Qed.

Lemma border_read_nonneg img y x : binary img → 0 ≤ border_read img y x.
Proof.
  intros Hbin. rewrite binary_pixel in Hbin.
  destruct (border_read_cases img y x) as [->|(i & j & Hp)]; [lia|].
  destruct (Hbin _ _ _ Hp); lia.
Qed.

Lemma border_read_zero img y x :
  border_read img y x = 0
  ↔ 0 ≤ y ∧ 0 ≤ x ∧ pixel img (Z.to_nat y) (Z.to_nat x) = Some 0.
Proof.
  unfold border_read. split.
  - destruct (0 <=? y) eqn:Hy, (0 <=? x) eqn:Hx; simpl; try done.
    apply Z.leb_le in Hy, Hx.
    destruct (pixel img _ _) as [v|]; simpl; [|done]. by intros ->.
  - intros (Hy & Hx & ->).
    by rewrite !(proj2 (Z.leb_le _ _)) by done.
Qed.

Lemma erode_px_zero img (offs : list (Z * Z)) i j :
  binary img → (∀ d, d ∈ offs ↔ (-1 ≤ d.1 ≤ 1 ∧ -1 ≤ d.2 ≤ 1)) →
  erode_px img offs i j = 0
  ↔ ∃ i' j', near 1 i i' ∧ near 1 j j' ∧ pixel img i' j' = Some 0.
Proof.
  intros Hbin Hoffs. unfold erode_px.
  rewrite foldr_min_zero; last first.
  { apply Forall_fmap, Forall_forall. intros d _. by apply border_read_nonneg. }
  rewrite list_elem_of_fmap. split.
  - intros (d & Hd & Hin). apply Hoffs in Hin.
    symmetry in Hd. apply border_read_zero in Hd as (Hy & Hx & Hp).
    exists (Z.to_nat (Z.of_nat i + d.1)), (Z.to_nat (Z.of_nat j + d.2)).
    unfold near. split_and!; (done || lia).
  - intros (i' & j' & [Hi1 Hi2] & [Hj1 Hj2] & Hp).
    exists (Z.of_nat i' - Z.of_nat i, Z.of_nat j' - Z.of_nat j). split.
    + symmetry. apply border_read_zero. simpl.
      replace (Z.of_nat i + (Z.of_nat i' - Z.of_nat i)) with (Z.of_nat i') by lia.
      replace (Z.of_nat j + (Z.of_nat j' - Z.of_nat j)) with (Z.of_nat j') by lia.
      rewrite !Nat2Z.id. split_and!; (done || lia).
    + apply Hoffs. simpl. lia.
Qed.

(** One erosion by the square kernel puts a zero where the image has a
    zero next to the pixel. *)
Lemma erode_once_zero img i j :
  binary img →
  pixel (erode_once square_offsets img) i j = Some 0
  ↔ is_Some (pixel img i j)
    ∧ ∃ i' j', near 1 i i' ∧ near 1 j j' ∧ pixel img i' j' = Some 0.
Proof.
  intros Hbin. rewrite pixel_erode_once.
  rewrite <- (erode_px_zero img square_offsets i j Hbin elem_of_square_offsets).
  destruct (pixel img i j) as [v|]; simpl.
  - split; [intros [= ->]; by eauto|]. by intros [_ ->].
  - split; [done|]. by intros [[? [=]] _].
Qed.

Lemma pixel_is_Some img i j :
  well_shaped img →
  is_Some (pixel img i j) ↔ (i < rows img ∧ j < cols img)%nat.
Proof.
  intros Hws. split.
  - intros [v Hv]. by eapply pixel_range.
  - intros [Hi Hj]. by apply pixel_in_range.
Qed.

Lemma erode_iter_facts img n :
  well_shaped img → binary img →
  let e := Nat.iter n (erode_once square_offsets) img in
  well_shaped e ∧ shape e = shape img ∧ binary e.
Proof.
  intros Hws Hbin.
  destruct (erosions_spec img (kernel_offsets (np_ones 3 3)) n
    centre_in_kernel Hws Hbin) as (He & Hsh & Hbe & _).
  done.
Qed.

(** [n] erosions by the square kernel put a zero exactly where the image
    has a zero at most [n] rows and [n] columns away. *)
Lemma erode_iter_zero img n i j :
  well_shaped img → binary img →
  pixel (Nat.iter n (erode_once square_offsets) img) i j = Some 0
  ↔ is_Some (pixel img i j)
    ∧ ∃ i' j', near n i i' ∧ near n j j' ∧ pixel img i' j' = Some 0.
Proof.
  intros Hws Hbin. revert i j. induction n as [|n IH]; intros i j.
  - simpl. split.
    + intros Hp. split; [by eexists|]. exists i, j. unfold near.
      split_and!; (done || lia).
    + intros [_ (i' & j' & [? ?] & [? ?] & Hp)].
      by replace i with i' by lia; replace j with j' by lia.
  - destruct (erode_iter_facts img n Hws Hbin) as (Hwe & [= Hr Hc] & Hbe).
    simpl. rewrite erode_once_zero by done.
    rewrite !pixel_is_Some, Hr, Hc by done. split.
    + intros [Hin (i1 & j1 & [? ?] & [? ?] & Hp)]. split; [done|].
      apply IH in Hp as [_ (i' & j' & [? ?] & [? ?] & Hp)].
      exists i', j'. unfold near. split_and!; (done || lia).
    + intros [[Hi Hj] (i' & j' & [? ?] & [? ?] & Hp)].
      split; [done|].
      destruct (pixel_range _ _ _ _ Hws Hp) as [Hi' Hj'].
      set (i1 := if decide (i < i')%nat then S i
                 else if decide (i' < i)%nat then (i - 1)%nat else i).
      set (j1 := if decide (j < j')%nat then S j
                 else if decide (j' < j)%nat then (j - 1)%nat else j).
      assert (near 1 i i1 ∧ near n i1 i' ∧ i1 < rows img)%nat
        as ([? ?] & [? ?] & ?)
        by (unfold near; subst i1; repeat case_decide; lia).
      assert (near 1 j j1 ∧ near n j1 j' ∧ j1 < cols img)%nat
        as ([? ?] & [? ?] & ?)
        by (unfold near; subst j1; repeat case_decide; lia).
      exists i1, j1. unfold near. split_and!; try lia.
      apply IH. split; [by apply pixel_is_Some|].
      exists i', j'. unfold near. split_and!; (done || lia).
Qed.

(** The padded mask: zeros on the border, the mask inside. *)
Lemma pixel_copyMakeBorder mask i j :
  well_shaped mask →
  pixel (copyMakeBorder mask 1 1 1 1 0) i j
  = if decide (i < rows mask + 2 ∧ j < cols mask + 2)%nat then
      if decide (i = 0 ∨ i = rows mask + 1 ∨ j = 0 ∨ j = cols mask + 1)%nat
      then Some 0 else pixel mask (i - 1) (j - 1)
    else None.
Proof.
  intros Hws. pose proof Hws as [Hlen Hrows].
  pose proof (copyMakeBorder_well_shaped mask 1 1 1 1 0 Hws) as Hwp.
  case_decide as Hin.
  - destruct Hin as [Hi Hj]. case_decide as Hb.
    + destruct (pixel_in_range (copyMakeBorder mask 1 1 1 1 0) i j Hwp)
        as [v Hv]; [simpl; lia..|].
      rewrite Hv. f_equal.
      apply pixel_Some in Hv as (r & Hr & Hv).
      unfold copyMakeBorder in Hr. cbn [data] in Hr.
      rewrite Forall_lookup in Hrows.
      apply lookup_app_Some in Hr as [Hr|[Hge Hr]].
      { apply lookup_replicate in Hr as [-> _].
        by apply lookup_replicate in Hv as [-> _]. }
      rewrite length_replicate in Hge, Hr.
      apply lookup_app_Some in Hr as [Hr|[_ Hr]].
      * apply list_lookup_fmap_Some in Hr as (row & -> & Hrow).
        pose proof (Hrows _ _ Hrow) as Hlr.
        apply lookup_app_Some in Hv as [Hv|[Hgj Hv]].
        { by apply lookup_replicate in Hv as [-> _]. }
        rewrite length_replicate in Hgj, Hv.
        apply lookup_app_Some in Hv as [Hv|[_ Hv]].
        { apply lookup_lt_Some in Hrow, Hv. lia. }
        by apply lookup_replicate in Hv as [-> _].
      * apply lookup_replicate in Hr as [-> _].
        by apply lookup_replicate in Hv as [-> _].
    + destruct i as [|i]; [lia|]. destruct j as [|j]; [lia|].
      rewrite copyMakeBorder_inner by (done || lia).
      by rewrite !Nat.sub_1_r.
  - destruct (pixel (copyMakeBorder mask 1 1 1 1 0) i j) as [v|] eqn:Hv;
      [|done].
    apply (pixel_range _ _ _ _ Hwp) in Hv. simpl in Hv. lia.
Qed.

Lemma eroded_padding_iter mask n :
  eroded_padding mask (Z.of_nat n)
  = Nat.iter n (erode_once square_offsets) (copyMakeBorder mask 1 1 1 1 0).
Proof. unfold eroded_padding, erosions. by rewrite Nat2Z.id. Qed.

(** After [n] erosions the padded mask is zero over a pixel of the mask
    exactly when the pixel lies within [n] of the edge. *)
Lemma eroded_padding_zero mask n i j :
  well_shaped mask → binary mask → is_Some (pixel mask i j) →
  pixel (eroded_padding mask (Z.of_nat n)) (S i) (S j) = Some 0
  ↔ edge_within n mask i j.
Proof.
  intros Hws Hbin [m Hm]. destruct (pixel_range _ _ _ _ Hws Hm) as [Hi Hj].
  rewrite eroded_padding_iter, erode_iter_zero
    by auto using copyMakeBorder_well_shaped, copyMakeBorder_binary.
  rewrite copyMakeBorder_inner, Hm by done. unfold edge_within, near. split.
  - intros [_ (i' & j' & [? ?] & [? ?] & Hp)].
    rewrite pixel_copyMakeBorder in Hp by done.
    case_decide as Hin; [|done]. case_decide as Hb.
    + left. lia.
    + right. exists (i' - 1)%nat, (j' - 1)%nat. split_and!; (done || lia).
  - intros Hedge. split; [by eexists|].
    destruct Hedge as [Hedge|(i' & j' & [? ?] & [? ?] & Hp)].
    + assert (∃ i' j', (i' < rows mask + 2 ∧ j' < cols mask + 2)
                ∧ (i' = 0 ∨ i' = rows mask + 1 ∨ j' = 0 ∨ j' = cols mask + 1)
                ∧ (S i ≤ i' + n ∧ i' ≤ S i + n)
                ∧ (S j ≤ j' + n ∧ j' ≤ S j + n))%nat
        as (i' & j' & Hin & Hb & ? & ?).
      { destruct Hedge as [?|[?|[?|?]]].
        - exists 0%nat, (S j). lia.
        - exists (S i), 0%nat. lia.
        - exists (rows mask + 1)%nat, (S j). lia.
        - exists (S i), (cols mask + 1)%nat. lia. }
      exists i', j'. split_and!; try lia.
      by rewrite pixel_copyMakeBorder, decide_True, decide_True.
    + destruct (pixel_range _ _ _ _ Hws Hp) as [Hi' Hj'].
      exists (S i'), (S j'). split_and!; try lia.
      by rewrite copyMakeBorder_inner.
Qed.

(** The boundary after [n] erosions is the part of the mask that lies
    within [n] of the edge. *)
Lemma erosion_difference_band mask n i j :
  well_shaped mask → binary mask →
  pixel (erosion_difference mask (Z.of_nat n)) i j = Some 1
  ↔ pixel mask i j = Some 1 ∧ edge_within n mask i j.
Proof.
  intros Hws Hbin.
  destruct (erosion_difference_boundary mask (Z.of_nat n) Hws Hbin)
    as (_ & _ & _ & Hiff & _).
  rewrite Hiff. split.
  - intros [Hm He]. split; [done|].
    by apply eroded_padding_zero in He.
  - intros [Hm He]. split; [done|]. by apply eroded_padding_zero.
Qed.

Lemma dilation_of_positive h w dilation_ratio dilation :
  dilation_of h w dilation_ratio = Ok dilation → 1 ≤ dilation.
Proof.
  unfold dilation_of. destruct (py_round _) as [r|]; simpl; [|done].
  intros [= <-]. destruct (r <? 1) eqn:Hr; [lia|]. by apply Z.ltb_ge in Hr.
Qed.

(** A call of [mask_to_boundary] that returns, with the number of erosions
    as a natural number. *)
Lemma mask_to_boundary_iterations mask dilation_ratio boundary :
  mask_to_boundary mask dilation_ratio = Ok boundary →
  ∃ dilation,
    dilation_of (rows mask) (cols mask) dilation_ratio = Ok dilation
    ∧ 1 ≤ dilation
    ∧ boundary = erosion_difference mask (Z.of_nat (Z.to_nat dilation)).
Proof.
  intros (dilation & Hd & _ & ->)%mask_to_boundary_Ok.
  pose proof (dilation_of_positive _ _ _ _ Hd).
  exists dilation. by rewrite Z2Nat.id by lia.
Qed.

End band.

Section band_properties.
Context {memory : Memory}.
Implicit Types (mask boundary : ndarray) (i j n : nat).

Lemma edge_within_mono n n' mask i j :
  (n ≤ n')%nat → edge_within n mask i j → edge_within n' mask i j.
Proof.
  intros Hle [Hb|(i' & j' & [? ?] & [? ?] & Hp)]; [left; lia|].
  right. exists i', j'. unfold near. split_and!; (done || lia).
Qed.

Lemma np_ones_well_shaped h w : well_shaped (np_ones h w).
Proof.
  split; simpl; [by rewrite length_replicate|].
  apply Forall_replicate. by rewrite length_replicate.
Qed.

Lemma pixel_np_ones h w i j v :
  pixel (np_ones h w) i j = Some v ↔ v = 1 ∧ (i < h ∧ j < w)%nat.
Proof.
  rewrite pixel_Some. simpl. split.
  - intros (r & [-> ?]%lookup_replicate & [-> ?]%lookup_replicate). done.
  - intros (-> & Hi & Hj). exists (replicate w 1).
    by rewrite !lookup_replicate.
Qed.

Lemma np_ones_binary h w : binary (np_ones h w).
Proof.
  apply binary_pixel. intros i j v [-> _]%pixel_np_ones. by right.
Qed.

(** X1.  The boundary mask is the band of the mask along its edge: for a
    binary mask and a call that returns, with the computed number
    [dilation] of erosions, a pixel of the result is set exactly when it is
    foreground and either fewer than [dilation] rows or columns lie between
    it and the image border, or some background pixel is at most [dilation]
    rows and columns away.  The padding of one pixel therefore acts like a
    background around the image at every erosion, not only at the first. *)
Theorem boundary_is_edge_band mask dilation_ratio boundary :
  well_shaped mask → binary mask →
  mask_to_boundary mask dilation_ratio = Ok boundary →
  ∃ dilation,
    dilation_of (rows mask) (cols mask) dilation_ratio = Ok dilation
    ∧ 1 ≤ dilation
    ∧ ∀ i j, pixel boundary i j = Some 1
             ↔ pixel mask i j = Some 1
               ∧ edge_within (Z.to_nat dilation) mask i j.
Proof.
  intros Hws Hbin (dilation & Hd & Hpos & ->)%mask_to_boundary_iterations.
  exists dilation. split_and!; [done..|].
  intros i j. by apply erosion_difference_band.
Qed.

(** X2.  As the comment of line 26 says, a mask cut by the image border
    has its border pixels in the boundary: for every ratio for which the
    function returns, a foreground pixel in the first or last row or column
    of the image is set in the result. *)
Theorem border_foreground_is_boundary mask dilation_ratio boundary i j :
  well_shaped mask → binary mask →
  mask_to_boundary mask dilation_ratio = Ok boundary →
  pixel mask i j = Some 1 →
  (i = 0 ∨ j = 0 ∨ S i = rows mask ∨ S j = cols mask)%nat →
  pixel boundary i j = Some 1.
Proof.
  intros Hws Hbin (dilation & _ & Hpos & ->)%mask_to_boundary_iterations
    Hm Hborder.
  apply erosion_difference_band; [done..|]. split; [done|]. left. lia.
Qed.

(** X3.  An empty mask has an empty boundary: for a mask of zeros and
    every ratio for which the function returns, the result has the shape
    of the mask and is zero everywhere. *)
Theorem zero_mask_zero_boundary mask dilation_ratio boundary :
  well_shaped mask → (∀ i j v, pixel mask i j = Some v → v = 0) →
  mask_to_boundary mask dilation_ratio = Ok boundary →
  shape boundary = shape mask
  ∧ ∀ i j, (i < rows mask)%nat → (j < cols mask)%nat →
      pixel boundary i j = Some 0.
Proof.
  intros Hws Hzero (dilation & _ & _ & ->)%mask_to_boundary_Ok.
  assert (binary mask) as Hbin.
  { apply binary_pixel. intros i j v ->%Hzero. by left. }
  destruct (erosion_difference_boundary mask dilation Hws Hbin)
    as (Hsh & Hwb & Hbb & Hiff & _).
  split; [done|]. intros i j Hi Hj.
  destruct (pixel_in_range _ i j Hwb) as [v Hv]; [done..|].
  rewrite binary_pixel in Hbb. destruct (Hbb _ _ _ Hv) as [->| ->]; [done|].
  apply Hiff in Hv as [Hm%Hzero _]. done.
Qed.

(** X4.  More erosions never take a pixel out of the boundary: if two
    ratios give the dilations [d1 ≤ d2] on a binary mask and both calls
    return, every pixel set in the boundary for the first ratio is set in
    the boundary for the second. *)
Theorem boundary_grows_with_dilation mask ratio1 ratio2 d1 d2 boundary1
    boundary2 :
  well_shaped mask → binary mask →
  dilation_of (rows mask) (cols mask) ratio1 = Ok d1 →
  dilation_of (rows mask) (cols mask) ratio2 = Ok d2 →
  d1 ≤ d2 →
  mask_to_boundary mask ratio1 = Ok boundary1 →
  mask_to_boundary mask ratio2 = Ok boundary2 →
  ∀ i j, pixel boundary1 i j = Some 1 → pixel boundary2 i j = Some 1.
Proof.
  intros Hws Hbin Hd1 Hd2 Hle
    (d1' & Hd1' & _ & ->)%mask_to_boundary_iterations
    (d2' & Hd2' & _ & ->)%mask_to_boundary_iterations i j.
  assert (d1' = d1) as -> by congruence.
  assert (d2' = d2) as -> by congruence.
  rewrite !erosion_difference_band by done.
  intros [Hm He]. split; [done|]. eapply edge_within_mono; [|done]. lia.
Qed.

(** X5.  For a mask that is foreground everywhere and a call that
    returns, the boundary is the frame of width [dilation] along the image
    border: a pixel inside the image is set exactly when fewer than
    [dilation] rows or columns lie between it and the border. *)
Theorem full_mask_boundary_is_frame (h w : nat) dilation_ratio boundary :
  mask_to_boundary (np_ones h w) dilation_ratio = Ok boundary →
  ∃ dilation,
    dilation_of h w dilation_ratio = Ok dilation
    ∧ 1 ≤ dilation
    ∧ ∀ i j, pixel boundary i j = Some 1
             ↔ (i < h ∧ j < w)%nat
               ∧ (i < Z.to_nat dilation ∨ j < Z.to_nat dilation
                  ∨ h ≤ i + Z.to_nat dilation
                  ∨ w ≤ j + Z.to_nat dilation)%nat.
Proof.
  intros (dilation & Hd & Hpos & ->)%mask_to_boundary_iterations.
  exists dilation. split_and!; [done..|]. intros i j.
  rewrite erosion_difference_band
    by auto using np_ones_well_shaped, np_ones_binary.
  rewrite pixel_np_ones. unfold edge_within. simpl. split.
  - intros [[_ Hin] [Hb|(i' & j' & _ & _ & [? _]%pixel_np_ones)]]; done.
  - intros [Hin Hb]. split; [done|]. by left.
Qed.

End band_properties.

(** ** The calls of the mask provider and the errors of the pipeline *)

Section pipeline_traces.
Context {memory : Memory}.
Context {Val : Type}.
Variable rle_encode : ndarray → Val.
Variable ann_to_mask : gmap string Val → result ndarray.
Variable cpu_count : positive.
Context {Index : Type}.
Variable createIndex : list (gmap string Val) → Index.

Implicit Types (ann : gmap string Val).
Implicit Types (annotations out finished rest : list (gmap string Val)).
Implicit Types (ratio : float) (coco : @COCO Val Index).

Lemma single_core_loop_succeeds ratio annotations out acc calls :
  Forall2 (λ ann ann',
    augment_annotation rle_encode ann_to_mask ratio ann = Ok ann')
    annotations out →
  single_core_loop rle_encode ann_to_mask ratio annotations acc calls
  = (calls ++ annotations, Ok (acc ++ out)).
Proof.
  intros Hall. revert acc calls.
  induction Hall as [|ann ann' annotations out Hann _ IH]; intros acc calls;
    simpl.
  - by rewrite !app_nil_r.
  - rewrite Hann, IH. by rewrite <- !app_assoc.
Qed.

Lemma single_core_loop_fails ratio finished ann rest e acc calls :
  Forall (λ ann, is_Ok (augment_annotation rle_encode ann_to_mask ratio ann))
    finished →
  augment_annotation rle_encode ann_to_mask ratio ann = Raise e →
  single_core_loop rle_encode ann_to_mask ratio (finished ++ ann :: rest)
    acc calls
  = (calls ++ finished ++ [ann], Raise e).
Proof.
  intros Hfin Hann. revert acc calls.
  induction Hfin as [|ann0 finished [ann0' Hann0] _ IH]; intros acc calls;
    simpl.
  - by rewrite Hann.
  - rewrite Hann0, IH. by rewrite <- !app_assoc.
Qed.

(** X6.  The loop over a shard stops at the first annotation whose mask or
    boundary cannot be computed: the function raises the exception of that
    annotation, the mask provider has been called on the annotations up to
    and including it, in order, and on none of the annotations after it. *)
Theorem single_core_stops_at_first_failure (proc_id : nat) ratio finished ann
    rest e :
  Forall (λ ann, is_Ok (augment_annotation rle_encode ann_to_mask ratio ann))
    finished →
  augment_annotation rle_encode ann_to_mask ratio ann = Raise e →
  augment_annotations_with_boundary_single_core rle_encode ann_to_mask
    proc_id (finished ++ ann :: rest) ratio
  = (finished ++ [ann], Raise e).
Proof.
  intros Hfin Hann. unfold augment_annotations_with_boundary_single_core.
  by rewrite (single_core_loop_fails _ _ _ _ _ _ _ Hfin Hann).
Qed.

Lemma single_core_succeeds (proc_id : nat) ratio annotations :
  Forall (λ ann, is_Ok (augment_annotation rle_encode ann_to_mask ratio ann))
    annotations →
  ∃ out,
    augment_annotations_with_boundary_single_core rle_encode ann_to_mask
      proc_id annotations ratio
    = (annotations, Ok out).
Proof.
  intros Hall.
  destruct (shard_result_all_Ok rle_encode ann_to_mask ratio annotations Hall)
    as [out Hout].
  apply shard_result_Ok in Hout. exists out.
  unfold augment_annotations_with_boundary_single_core.
  by rewrite (single_core_loop_succeeds _ _ _ _ _ Hout).
Qed.

(** X7.  When every annotation can be augmented, a call of
    [add_boundary_multi_core] on a dataset without boundaries, with a
    positive number of workers, hands each annotation of the dataset to the
    mask provider exactly once: there is one list of calls per worker, and
    the lists joined in the order of the workers are the annotations of the
    dataset. *)
Theorem every_annotation_masked_once coco cpu_num ratio :
  get_boundary coco = false → 0 < cpu_num →
  Forall (λ ann, is_Ok (augment_annotation rle_encode ann_to_mask ratio ann))
    (dataset_annotations coco) →
  let call :=
    add_boundary_multi_core rle_encode ann_to_mask cpu_count coco cpu_num
      ratio in
  length (provider_calls call.1) = Z.to_nat (cpu_num `min` Z.pos cpu_count)
  ∧ mjoin (provider_calls call.1) = dataset_annotations coco.
Proof.
  intros Hflag Hpos Hall call. subst call.
  unfold add_boundary_multi_core. rewrite Hflag.
  destruct (array_split_join (dataset_annotations coco)
    (cpu_num `min` Z.pos cpu_count)) as (shards & -> & Hlen & Hjoin); [lia|].
  destruct (lookup_lt_is_Some_2 shards 0) as [first ->]; [lia|].
  assert ((submit_and_gather rle_encode ann_to_mask shards ratio).1 = shards)
    as Hcalls.
  { unfold submit_and_gather. simpl. rewrite fmap_imap.
    rewrite <- (list_fmap_id shards) at 2. rewrite <- imap_const.
    apply imap_ext. intros i shard Hshard. simpl.
    destruct (single_core_succeeds i ratio shard) as [out ->]; [|done].
    rewrite <- Hjoin in Hall. rewrite Forall_forall in Hall.
    apply Forall_forall. intros ann Hin. apply Hall, list_elem_of_join.
    exists shard. split; [done|]. by eapply list_elem_of_lookup_2. }
  destruct (submit_and_gather rle_encode ann_to_mask shards ratio)
    as [calls [new_annotations|e]]; simpl in *; by subst calls.
Qed.

(** X8.  A number of workers that is zero or negative is refused: on a
    dataset without boundaries [add_boundary_multi_core] raises the
    [ValueError] of [np.array_split] after its first message, before any
    worker is started, and the dataset is as before. *)
Theorem nonpositive_cpu_num_is_refused coco cpu_num ratio :
  get_boundary coco = false → cpu_num ≤ 0 →
  let call :=
    add_boundary_multi_core rle_encode ann_to_mask cpu_count coco cpu_num
      ratio in
  call = (Effects [Adding_boundary] [] [],
          Raise (ValueError "number sections must be larger than 0."))
  ∧ after createIndex coco call.1 = coco.
Proof.
  intros Hflag Hle call. subst call.
  unfold add_boundary_multi_core. rewrite Hflag.
  rewrite array_split_nonpositive by lia. done.
Qed.

Section recomputation.

Hypothesis ann_to_mask_ignores_boundary :
  ∀ ann v, ann_to_mask (<["boundary" := v]> ann) = ann_to_mask ann.

Lemma augment_stale ratio ann v :
  augment_annotation rle_encode ann_to_mask ratio (<["boundary" := v]> ann)
  = augment_annotation rle_encode ann_to_mask ratio ann.
Proof.
  unfold augment_annotation. rewrite ann_to_mask_ignores_boundary.
  destruct (ann_to_mask ann) as [mask|]; simpl; [|done].
  destruct (mask_to_boundary mask ratio) as [boundary|]; simpl; [|done].
  by rewrite insert_insert_eq.
Qed.

Lemma augment_again ratio ann ann' :
  augment_annotation rle_encode ann_to_mask ratio ann = Ok ann' →
  augment_annotation rle_encode ann_to_mask ratio ann' = Ok ann'.
Proof.
  intros Hann.
  destruct (augment_annotation_insert _ _ _ _ _ Hann)
    as (mask & boundary & Hm & Hb & ->).
  by rewrite augment_stale.
Qed.

(** X9.  For a mask provider that does not read the key ["boundary"],
    computing the boundaries again changes nothing: a boundary that an
    annotation already carries is replaced by the one computed from its
    mask, so an annotation with a stale boundary is augmented like the
    annotation without it, and the single-core function applied to its own
    output returns that output. *)
Theorem recomputation_is_idempotent (proc_id : nat) ratio annotations out :
  (augment_annotations_with_boundary_single_core rle_encode ann_to_mask
     proc_id annotations ratio).2 = Ok out →
  (augment_annotations_with_boundary_single_core rle_encode ann_to_mask
     proc_id out ratio).2 = Ok out
  ∧ ∀ ann v,
      augment_annotation rle_encode ann_to_mask ratio
        (<["boundary" := v]> ann)
      = augment_annotation rle_encode ann_to_mask ratio ann.
Proof.
  intros Hout%shard_result_Ok. split; [|intros; apply augment_stale].
  apply (shard_result_Ok rle_encode ann_to_mask).
  induction Hout as [|ann ann' annotations out Hann _ IH]; constructor;
    [|done].
  by eapply augment_again.
Qed.

End recomputation.

End pipeline_traces.

(** ** The name of the written file *)

Section names.
Implicit Types (s t : string) (c : ascii) (p : path) (n : nat).

Lemma rfind_bounds s c : -1 ≤ rfind s c < Z.of_nat (String.length s).
Proof.
  induction s as [|a s IH]; simpl; [lia|].
  destruct (rfind s c =? -1) eqn:Hr.
  - destruct (Ascii.eqb a c); lia.
  - apply Z.eqb_neq in Hr. lia.
Qed.

Lemma rfind_app s t c :
  rfind (s +:+ t) c
  = if rfind t c =? -1 then rfind s c
    else Z.of_nat (String.length s) + rfind t c.
Proof.
  pose proof (rfind_bounds t c) as Ht.
  induction s as [|a s IH].
  - change (EmptyString +:+ t) with t. simpl.
    destruct (rfind t c =? -1) eqn:Hr; [by apply Z.eqb_eq in Hr|done].
  - rewrite string_app_cons. cbn [rfind String.length]. rewrite IH.
    destruct (rfind t c =? -1) eqn:Hr; [done|].
    apply Z.eqb_neq in Hr.
    rewrite (proj2 (Z.eqb_neq _ _)) by lia. lia.
Qed.

Lemma rfind_drop s c :
  0 ≤ rfind s c → rfind (str_drop (Z.to_nat (rfind s c)) s) c = 0.
Proof.
  induction s as [|a s IH]; [simpl; lia|]. cbn [rfind].
  pose proof (rfind_bounds s c).
  destruct (rfind s c =? -1) eqn:Hr.
  - destruct (Ascii.eqb a c) eqn:Ha; [|lia]. intros _.
    change (Z.to_nat 0) with 0%nat. cbn [str_drop rfind]. by rewrite Hr, Ha.
  - apply Z.eqb_neq in Hr. intros _.
    replace (Z.to_nat (rfind s c + 1)) with (S (Z.to_nat (rfind s c))) by lia.
    cbn [str_drop]. apply IH. lia.
Qed.

Lemma str_take_length n s :
  (n ≤ String.length s)%nat → String.length (str_take n s) = n.
Proof.
  revert s. induction n as [|n IH]; intros [|a s] Hn; simpl in *;
    [done|done|lia|].
  rewrite IH; lia.
Qed.

Lemma str_drop_length n s :
  (n ≤ String.length s)%nat
  → String.length (str_drop n s) = (String.length s - n)%nat.
Proof.
  revert s. induction n as [|n IH]; intros [|a s] Hn; simpl in *;
    [done|done|lia|].
  rewrite IH; lia.
Qed.

Lemma str_take_app s t : str_take (String.length s) (s +:+ t) = s.
Proof.
  induction s as [|a s IH]; [by destruct t|].
  rewrite string_app_cons. simpl. by rewrite IH.
Qed.

Lemma str_drop_app s t : str_drop (String.length s) (s +:+ t) = t.
Proof.
  induction s as [|a s IH]; [by destruct t|].
  rewrite string_app_cons. simpl. by rewrite IH.
Qed.

Lemma string_app_assoc_front s t u : (s +:+ t) +:+ u = s +:+ t +:+ u.
Proof.
  induction s as [|a s IH]; [done|]. by rewrite !string_app_cons, IH.
Qed.

Lemma path_name_last p s : path_name (p ++ [s]) = s.
Proof. unfold path_name. by rewrite last_snoc. Qed.

(** [pathlib] cuts a name before a last part that starts with its only
    dot and is longer than the dot. *)
Lemma cut_before_suffix q front suffix :
  rfind suffix "." = 0 → (1 < String.length suffix)%nat →
  (0 < String.length front)%nat →
  path_suffix (q ++ [front +:+ suffix]) = suffix
  ∧ path_stem (q ++ [front +:+ suffix]) = front.
Proof.
  intros Hrs Hls Hlf. unfold path_suffix, path_stem.
  rewrite path_name_last, rfind_app, Hrs, string_app_length. simpl.
  rewrite Z.add_0_r, Nat2Z.id.
  rewrite (proj2 (Z.ltb_lt _ _)), (proj2 (Z.ltb_lt _ _)) by lia. simpl.
  by rewrite str_drop_app, str_take_app.
Qed.

(** A name made of the stem, an addon and the suffix of a name with a
    suffix is cut by [pathlib] after the addon. *)
Lemma suffix_after_addon p q addon :
  path_suffix p ≠ EmptyString →
  path_suffix (q ++ [path_stem p +:+ addon +:+ path_suffix p]) = path_suffix p
  ∧ path_stem (q ++ [path_stem p +:+ addon +:+ path_suffix p])
    = path_stem p +:+ addon.
Proof.
  intros Hsuffix.
  pose proof (rfind_bounds (path_name p) ".") as Hbounds.
  assert (∃ i, (0 < i ∧ i + 1 < String.length (path_name p))%nat
               ∧ rfind (path_name p) "." = Z.of_nat i
               ∧ path_suffix p = str_drop i (path_name p)
               ∧ path_stem p = str_take i (path_name p))
    as (i & [Hi1 Hi2] & Hrf & Hsuf & Hstem).
  { unfold path_suffix, path_stem in *.
    destruct (_ && _) eqn:Hc; [|done].
    apply andb_true_iff in Hc as [H1%Z.ltb_lt H2%Z.ltb_lt].
    exists (Z.to_nat (rfind (path_name p) ".")).
    rewrite Z2Nat.id by lia. split_and!; (done || lia). }
  rewrite <- string_app_assoc_front.
  apply cut_before_suffix.
  - rewrite Hsuf. rewrite <- (Nat2Z.id i), <- Hrf. apply rfind_drop. lia.
  - rewrite Hsuf, str_drop_length; lia.
  - rewrite string_app_length, Hstem, str_take_length; lia.
Qed.

End names.

Section new_file.
Implicit Types (annotation_file : path) (stem_addon : string).

Lemma name_is_component annotation_file :
  annotation_file ≠ [] → Forall is_component annotation_file →
  is_component (path_name annotation_file).
Proof.
  intros Hne Hcomps.
  rewrite <- (path_parent_name annotation_file Hne) in Hcomps.
  by apply Forall_app in Hcomps as [_ [? _]%Forall_cons].
Qed.

Lemma new_annotation_file_named annotation_file stem_addon :
  annotation_file ≠ [] → Forall is_component annotation_file →
  contains "/" stem_addon = false →
  new_annotation_file annotation_file stem_addon
  = path_parent annotation_file
    ++ [path_stem annotation_file +:+ stem_addon
        +:+ path_suffix annotation_file].
Proof.
  intros Hne Hcomps Hslash.
  pose proof (name_is_component _ Hne Hcomps) as Hname.
  unfold new_annotation_file. apply truediv_component.
  destruct stem_addon as [|a addon].
  - change (EmptyString +:+ path_suffix annotation_file)
      with (path_suffix annotation_file).
    by rewrite stem_suffix.
  - by apply new_name_component.
Qed.

Lemma new_annotation_file_fresh annotation_file stem_addon :
  annotation_file ≠ [] → Forall is_component annotation_file →
  stem_addon ≠ EmptyString → contains "/" stem_addon = false →
  new_annotation_file annotation_file stem_addon ≠ annotation_file.
Proof.
  intros Hne Hcomps Haddon Hslash.
  rewrite new_annotation_file_named by done.
  rewrite <- (path_parent_name annotation_file Hne) at 4.
  intros [= Heq]%(inj (app _)).
  apply (f_equal String.length) in Heq.
  rewrite <- (stem_suffix annotation_file) in Heq.
  rewrite !string_app_length in Heq.
  destruct stem_addon; [done|]. simpl in Heq. lia.
Qed.

(** X10.  The written file keeps the extension of the annotation file: for
    a resolved path whose name has a suffix and an addon without a slash,
    [pathlib] cuts the name of line 123 after the addon, so the suffix of
    the new file is the suffix of the original and its stem is the stem of
    the original followed by the addon, also when the addon holds dots. *)
Theorem new_file_keeps_extension annotation_file stem_addon :
  annotation_file ≠ [] → Forall is_component annotation_file →
  contains "/" stem_addon = false →
  path_suffix annotation_file ≠ EmptyString →
  path_suffix (new_annotation_file annotation_file stem_addon)
  = path_suffix annotation_file
  ∧ path_stem (new_annotation_file annotation_file stem_addon)
    = path_stem annotation_file +:+ stem_addon.
Proof.
  intros Hne Hcomps Hslash Hsuffix.
  rewrite new_annotation_file_named by done.
  by apply suffix_after_addon.
Qed.

End new_file.

(** ** Running the wrapper again *)

Section wrapper_again.
Context {memory : Memory}.
Context {Val : Type}.
Variable rle_encode : ndarray → Val.
Variable ann_to_mask : gmap string Val → result ndarray.
Variable cpu_count : positive.
Context {Index : Type}.
Variable createIndex : list (gmap string Val) → Index.
Context {Json : Type}.
Variable COCO_init : Json → result (@COCO Val Index).
Variable anns_values : Index → list (gmap string Val).
Variable set_annotations : Json → list (gmap string Val) → Json.
Variable decode_counts : Val → result Val.

Local Abbreviation save :=
  (coco_add_boundaries_and_save_as_annotation_file rle_encode ann_to_mask
     cpu_count createIndex COCO_init anns_values set_annotations
     decode_counts).

(** What a call does depends on the files only through the content of the
    annotation file. *)
Lemma save_same_content (files files' : gmap path Json) annotation_file
    stem_addon :
  files' !! annotation_file = files !! annotation_file →
  (save files' annotation_file stem_addon).2
  = (save files annotation_file stem_addon).2
  ∧ (save files' annotation_file stem_addon).1.2
    = (save files annotation_file stem_addon).1.2
  ∧ match (save files annotation_file stem_addon).2 with
    | Ok _ =>
        ∃ document,
          (save files annotation_file stem_addon).1.1
          = <[new_annotation_file annotation_file stem_addon := document]> files
          ∧ (save files' annotation_file stem_addon).1.1
            = <[new_annotation_file annotation_file stem_addon := document]>
                files'
    | Raise _ =>
        (save files annotation_file stem_addon).1.1 = files
        ∧ (save files' annotation_file stem_addon).1.1 = files'
    end.
Proof.
  intros Hsame. unfold coco_add_boundaries_and_save_as_annotation_file.
  rewrite Hsame.
  destruct (files !! annotation_file) as [content|]; [|done].
  destruct (COCO_init content) as [coco|]; [|done].
  destruct (add_boundary_multi_core _ _ _ coco _ _).2; [|done].
  destruct (decode_boundaries _ _); [|done].
  simpl. split_and!; [done..|]. by eexists.
Qed.

(** X11.  Running the wrapper a second time on the files the first run
    left, with the same arguments, gives the same outcome, the same
    messages and the same files: for a resolved path and a suffix that is
    not empty and holds no slash the first run has not touched the
    annotation file, so the second run computes the same document and
    writes it over the copy of the first. *)
Theorem save_again_changes_nothing (files : gmap path Json) annotation_file
    stem_addon :
  annotation_file ≠ [] → Forall is_component annotation_file →
  stem_addon ≠ EmptyString → contains "/" stem_addon = false →
  let run :=
    coco_add_boundaries_and_save_as_annotation_file rle_encode ann_to_mask
      cpu_count createIndex COCO_init anns_values set_annotations
      decode_counts in
  run (run files annotation_file stem_addon).1.1 annotation_file stem_addon
  = run files annotation_file stem_addon.
Proof.
  intros Hne Hcomps Haddon Hslash run. subst run.
  pose proof (new_annotation_file_fresh _ _ Hne Hcomps Haddon Hslash) as Hfresh.
  set (files1 := (save files annotation_file stem_addon).1.1).
  assert (files1 !! annotation_file = files !! annotation_file) as Hsame.
  { subst files1.
    pose proof (wrapper_writes rle_encode ann_to_mask cpu_count createIndex
      COCO_init anns_values set_annotations decode_counts files
      annotation_file stem_addon) as Hrun. simpl in Hrun.
    destruct (save files annotation_file stem_addon).2.
    - destruct Hrun as [document ->]. by rewrite lookup_insert_ne.
    - by rewrite Hrun. }
  destruct (save_same_content files files1 annotation_file stem_addon Hsame)
    as (Hret & Hprinted & Hfiles).
  assert ((save files1 annotation_file stem_addon).1.1 = files1) as Hfix.
  { destruct (save files annotation_file stem_addon).2.
    - destruct Hfiles as (document & Hf & ->). subst files1.
      rewrite Hf. apply insert_insert_eq.
    - by destruct Hfiles as [_ ->]. }
  destruct (save files1 annotation_file stem_addon) as [[f1 p1] r1],
    (save files annotation_file stem_addon) as [[f0 p0] r0] eqn:Hrun0.
  simpl in *. by subst.
Qed.

End wrapper_again.

(** ** Masks stored with another foreground value *)

(** Every stored value is 0 or [c]. *)
Definition two_valued (c : Z) (a : ndarray) : Prop :=
  Forall (Forall (λ v, v = 0 ∨ v = c)) (data a).

Section foreground_value.
Context {memory : Memory}.
Variable c : Z.
Hypothesis c_uint8 : 0 ≤ c ≤ 255.
Implicit Types (img mask : ndarray) (i j : nat).

Lemma two_valued_pixel img :
  two_valued c img ↔ ∀ i j v, pixel img i j = Some v → v = 0 ∨ v = c.
Proof.
  unfold two_valued. rewrite Forall_lookup. split.
  - intros H i j v (r & Hr & Hv)%pixel_Some.
    specialize (H _ _ Hr). rewrite Forall_lookup in H. eauto.
  - intros H i r Hr. apply Forall_lookup. intros j v Hv.
    apply (H i j). apply pixel_Some. eauto.
Qed.

Lemma copyMakeBorder_two_valued mask (t b l r : nat) :
  two_valued c mask → two_valued c (copyMakeBorder mask t b l r 0).
Proof.
  unfold two_valued. intros H. simpl.
  rewrite !Forall_app. split_and!.
  - apply Forall_replicate, Forall_replicate. by left.
  - apply Forall_fmap. eapply Forall_impl; [exact H|].
    intros row Hrow. simpl. rewrite !Forall_app. split_and!; [|done|].
    all: apply Forall_replicate; by left.
  - apply Forall_replicate, Forall_replicate. by left.
Qed.

Lemma erode_px_two_valued offs img i j v :
  (0, 0) ∈ offs → two_valued c img → pixel img i j = Some v →
  erode_px img offs i j = 0 ∨ erode_px img offs i j = c.
Proof.
  intros Hc Htwo Hv. rewrite two_valued_pixel in Htwo.
  pose proof (erode_px_le _ _ _ _ _ Hc Hv) as Hle.
  pose proof (Htwo _ _ _ Hv) as Hv0.
  unfold erode_px in *.
  destruct (foldr_min_cases 255 ((λ d, border_read img (Z.of_nat i + d.1)
    (Z.of_nat j + d.2)) <$> offs)) as [H255|Hin]; [lia|].
  apply list_elem_of_fmap in Hin as (d & Hd & _). rewrite Hd in *.
  destruct (border_read_cases img (Z.of_nat i + d.1) (Z.of_nat j + d.2))
    as [H255|(i' & j' & Hp)]; [lia|]. eauto.
Qed.

Lemma erode_iter_two_valued img n :
  well_shaped img → two_valued c img →
  let e := Nat.iter n (erode_once square_offsets) img in
  well_shaped e ∧ shape e = shape img ∧ two_valued c e
  ∧ ∀ i j v, pixel img i j = Some v → ∃ u, pixel e i j = Some u ∧ u ≤ v.
Proof.
  intros Hws Htwo.
  assert ((0, 0) ∈ square_offsets) as Hc by (apply elem_of_square_offsets; simpl; lia).
  induction n as [|n (IHws & IHsh & IHtwo & IHle)]; simpl.
  - split_and!; [done..|]. intros i j v ->. eexists. split; [done|lia].
  - split_and!.
    + by apply erode_once_well_shaped.
    + done.
    + apply two_valued_pixel. intros i j v. rewrite pixel_erode_once.
      destruct (pixel _ i j) as [u|] eqn:Hu; [|done]. intros [= <-].
      by eapply erode_px_two_valued.
    + intros i j v (u & Hu & Hle)%IHle. rewrite pixel_erode_once, Hu. simpl.
      eexists. split; [done|].
      pose proof (erode_px_le _ _ _ _ _ Hc Hu). lia.
Qed.

(** X12.  A mask may store its foreground as any [uint8] value [c], such
    as 255: for a mask with values in {0, c} and every ratio for which the
    function returns, the result has the shape of the mask and values in
    {0, c}, the subtraction of line 32 never wraps around, and a pixel
    holds [c] exactly when the mask holds [c] there and the eroded padding
    holds 0. *)
Theorem boundary_keeps_foreground_value mask dilation_ratio boundary :
  well_shaped mask → two_valued c mask →
  mask_to_boundary mask dilation_ratio = Ok boundary →
  ∃ dilation,
    dilation_of (rows mask) (cols mask) dilation_ratio = Ok dilation
    ∧ shape boundary = shape mask ∧ well_shaped boundary
    ∧ two_valued c boundary
    ∧ ∀ i j m, pixel mask i j = Some m →
        ∃ e, pixel (eroded_padding mask dilation) (S i) (S j) = Some e
             ∧ (e = 0 ∨ e = c) ∧ e ≤ m
             ∧ pixel boundary i j = Some (m - e).
Proof.
  intros Hws Htwo (dilation & Hd & Hpos & ->)%mask_to_boundary_iterations.
  exists dilation. split; [done|].
  replace (eroded_padding mask dilation)
    with (eroded_padding mask (Z.of_nat (Z.to_nat dilation)))
    by (by rewrite Z2Nat.id by lia).
  set (n := Z.to_nat dilation).
  destruct (erode_iter_two_valued (copyMakeBorder mask 1 1 1 1 0) n)
    as (Hwe & [= Hr Hc] & Hte & Hle).
  { by apply copyMakeBorder_well_shaped. }
  { by apply copyMakeBorder_two_valued. }
  rewrite <- eroded_padding_iter in Hwe, Hr, Hc, Hte, Hle.
  pose proof Htwo as Htwo'. rewrite two_valued_pixel in Htwo'.
  rewrite two_valued_pixel in Hte.
  assert (∀ i j m, pixel mask i j = Some m →
    ∃ e, pixel (eroded_padding mask (Z.of_nat n)) (S i) (S j) = Some e
         ∧ (e = 0 ∨ e = c) ∧ e ≤ m
         ∧ pixel (erosion_difference mask (Z.of_nat n)) i j = Some (m - e))
    as Hpx.
  { intros i j m Hm. destruct (pixel_range _ _ _ _ Hws Hm) as [Hi Hj].
    destruct (Hle (S i) (S j) m) as (e & He & Hem).
    { by rewrite copyMakeBorder_inner. }
    exists e. split_and!; [done|by eauto|done|].
    rewrite erosion_difference_pixel, Hm by done. simpl. rewrite He. simpl.
    f_equal. pose proof (Htwo' _ _ _ Hm). pose proof (Hte _ _ _ He).
    rewrite Z.mod_small; lia. }
  split_and!; [done| | |done].
  - apply uint8_sub_well_shaped; [done|by apply slice2_well_shaped|].
    unfold shape, slice2. simpl. rewrite Hr, Hc. simpl. f_equal; lia.
  - apply two_valued_pixel. intros i j v Hv.
    rewrite erosion_difference_pixel in Hv by done.
    destruct (pixel mask i j) as [m|] eqn:Hm; simpl in Hv; [|done].
    destruct (Hpx _ _ _ Hm) as (e & He & He0 & Hem & Hb).
    rewrite erosion_difference_pixel, Hm in Hb by done. simpl in Hb.
    rewrite Hb in Hv. injection Hv as <-.
    pose proof (Htwo' _ _ _ Hm). lia.
Qed.

End foreground_value.

(** ** Outcomes of the parallel functions and of the wrapper *)

(** The number the message of lines 54 and 84 reports, the length of the
    first shard: of [Ntotal] annotations in [Nsections] sections the first
    holds the quotient, and one more when the division leaves a rest. *)
Definition first_shard_size (Ntotal Nsections : nat) : nat :=
  (Ntotal / Nsections
   + if decide (0 < Ntotal mod Nsections) then 1 else 0)%nat.

Section outcomes.
Context {memory : Memory}.
Context {Val : Type}.
Variable rle_encode : ndarray → Val.
Variable ann_to_mask : gmap string Val → result ndarray.
Variable cpu_count : positive.
Context {Index : Type}.
Variable createIndex : list (gmap string Val) → Index.
Context {Json : Type}.
Variable COCO_init : Json → result (@COCO Val Index).
Variable anns_values : Index → list (gmap string Val).
Variable set_annotations : Json → list (gmap string Val) → Json.
Variable decode_counts : Val → result Val.

Implicit Types (ann : gmap string Val).
Implicit Types (annotations out finished rest : list (gmap string Val)).
Implicit Types (ratio : float) (coco : @COCO Val Index).

Lemma first_shard_length {A} (ary : list A) (W : Z) shards first :
  0 < W → array_split ary W = Ok shards → shards !! 0%nat = Some first →
  length first = first_shard_size (length ary) (Z.to_nat W).
Proof.
  intros HW Hsplit Hfirst. rewrite array_split_reshape in Hsplit by done.
  injection Hsplit as <-.
  destruct (reshape_lookup_length ary
    (shard_sizes (length ary) (Z.to_nat W)) 0
    (first_shard_size (length ary) (Z.to_nat W)))
    as (shard & Hshard & Hlen).
  - apply sum_shard_sizes. lia.
  - apply lookup_shard_sizes. lia.
  - congruence.
Qed.

(** A shard that fails has a first annotation that fails, and raises what
    that annotation raises. *)
Lemma shard_result_first_failure ratio annotations e :
  shard_result rle_encode ann_to_mask ratio annotations = Raise e →
  ∃ finished ann rest,
    annotations = finished ++ ann :: rest
    ∧ Forall (λ ann,
        is_Ok (augment_annotation rle_encode ann_to_mask ratio ann)) finished
    ∧ augment_annotation rle_encode ann_to_mask ratio ann = Raise e.
Proof.
  induction annotations as [|ann annotations IH]; [done|].
  rewrite shard_result_cons.
  destruct (augment_annotation rle_encode ann_to_mask ratio ann)
    as [ann'|e'] eqn:Hann; simpl.
  - destruct (shard_result rle_encode ann_to_mask ratio annotations)
      as [out|e'] eqn:Hout; simpl; [done|].
    intros [= ->].
    destruct (IH eq_refl) as (finished & ann0 & rest & -> & Hfin & Hann0).
    exists (ann :: finished), ann0, rest. split_and!; [done| |done].
    constructor; [by eexists|done].
  - intros [= ->]. by exists [], ann, annotations.
Qed.

Lemma shard_result_fails ratio finished ann rest e :
  Forall (λ ann, is_Ok (augment_annotation rle_encode ann_to_mask ratio ann))
    finished →
  augment_annotation rle_encode ann_to_mask ratio ann = Raise e →
  shard_result rle_encode ann_to_mask ratio (finished ++ ann :: rest)
  = Raise e.
Proof.
  intros Hfin Hann.
  induction Hfin as [|ann0 finished [ann0' Hann0] _ IH]; simpl;
    rewrite shard_result_cons.
  - by rewrite Hann.
  - by rewrite Hann0, IH.
Qed.

(** A call on a dataset without boundaries and a positive number of
    workers: the messages, the writes and the result, by the result of one
    pass over the annotations. *)
Lemma add_boundary_multi_core_outcome coco cpu_num ratio :
  get_boundary coco = false → 0 < cpu_num →
  let W := cpu_num `min` Z.pos cpu_count in
  let cores :=
    Number_of_cores W
      (first_shard_size (length (dataset_annotations coco)) (Z.to_nat W)) in
  ∃ calls,
    add_boundary_multi_core rle_encode ann_to_mask cpu_count coco cpu_num
      ratio
    = match
        shard_result rle_encode ann_to_mask ratio (dataset_annotations coco)
      with
      | Ok new_annotations =>
          (Effects [Adding_boundary; cores; Boundary_added] calls
             [Set_annotations new_annotations; Create_index;
              Set_get_boundary true],
           Ok ())
      | Raise e => (Effects [Adding_boundary; cores] calls [], Raise e)
      end.
Proof.
  intros Hflag Hpos W cores. subst cores W.
  unfold add_boundary_multi_core. rewrite Hflag.
  destruct (array_split_join (dataset_annotations coco)
    (cpu_num `min` Z.pos cpu_count)) as (shards & Hsplit & Hlen & Hjoin);
    [lia|].
  rewrite Hsplit.
  destruct (lookup_lt_is_Some_2 shards 0) as [first Hfirst]; [lia|].
  rewrite Hfirst.
  assert (0 < cpu_num `min` Z.pos cpu_count) as HW by lia.
  rewrite (first_shard_length _ _ _ _ HW Hsplit Hfirst).
  pose proof (submit_and_gather_result rle_encode ann_to_mask ratio shards)
    as Hres.
  rewrite Hjoin in Hres.
  destruct (submit_and_gather rle_encode ann_to_mask shards ratio)
    as [calls r].
  simpl in Hres. subst r. exists calls.
  by destruct (shard_result _ _ _ _).
Qed.

(** X13.  [augment_annotations_with_boundary_multi_core] prints one
    message, with the number of processors and the length of the first
    shard; it returns exactly when every annotation can be augmented, and
    when it raises, it raises what the first annotation, in the order of the
    input, that cannot be augmented raises: no error comes from the
    splitting or from the shard the message reads. *)
Theorem multi_core_raises_first_failure annotations ratio :
  let call :=
    augment_annotations_with_boundary_multi_core rle_encode ann_to_mask
      cpu_count annotations ratio in
  printed call.1
  = [Number_of_cores (Z.pos cpu_count)
       (first_shard_size (length annotations) (Pos.to_nat cpu_count))]
  ∧ (is_Ok call.2
     ↔ Forall (λ ann,
         is_Ok (augment_annotation rle_encode ann_to_mask ratio ann))
         annotations)
  ∧ ∀ e, call.2 = Raise e →
      ∃ finished ann rest,
        annotations = finished ++ ann :: rest
        ∧ Forall (λ ann,
            is_Ok (augment_annotation rle_encode ann_to_mask ratio ann))
            finished
        ∧ augment_annotation rle_encode ann_to_mask ratio ann = Raise e.
Proof.
  intros call. subst call.
  unfold augment_annotations_with_boundary_multi_core.
  destruct (array_split_join annotations (Z.pos cpu_count))
    as (shards & Hsplit & Hlen & Hjoin); [lia|].
  rewrite Hsplit.
  destruct (lookup_lt_is_Some_2 shards 0) as [first Hfirst]; [lia|].
  rewrite Hfirst.
  assert (0 < Z.pos cpu_count) as HW by lia.
  rewrite (first_shard_length _ _ _ _ HW Hsplit Hfirst).
  pose proof (submit_and_gather_result rle_encode ann_to_mask ratio shards)
    as Hres.
  rewrite Hjoin in Hres.
  destruct (submit_and_gather rle_encode ann_to_mask shards ratio)
    as [calls r].
  simpl in *. subst r. split_and!.
  - done.
  - split.
    + intros [out Hout%shard_result_Ok]. clear -Hout.
      induction Hout; constructor; [by eexists|done].
    + apply shard_result_all_Ok.
  - apply shard_result_first_failure.
Qed.

(** X14.  Which exception a failing call of [add_boundary_multi_core]
    raises does not depend on the number of workers: it is the exception of
    the first annotation of the dataset, in dataset order, that cannot be
    augmented.  The call has printed its first two messages, the second
    with the number of workers used and the length of the first shard, and
    not the last one. *)
Theorem first_failure_decides_exception coco cpu_num ratio finished ann rest
    e :
  get_boundary coco = false → 0 < cpu_num →
  dataset_annotations coco = finished ++ ann :: rest →
  Forall (λ ann, is_Ok (augment_annotation rle_encode ann_to_mask ratio ann))
    finished →
  augment_annotation rle_encode ann_to_mask ratio ann = Raise e →
  let call :=
    add_boundary_multi_core rle_encode ann_to_mask cpu_count coco cpu_num
      ratio in
  let W := cpu_num `min` Z.pos cpu_count in
  call.2 = Raise e
  ∧ printed call.1
    = [Adding_boundary;
       Number_of_cores W
         (first_shard_size (length (dataset_annotations coco))
            (Z.to_nat W))].
Proof.
  intros Hflag Hpos Hanns Hfin Hann call W. subst call W.
  destruct (add_boundary_multi_core_outcome coco cpu_num ratio Hflag Hpos)
    as [calls ->].
  pose proof (shard_result_fails ratio _ _ rest _ Hfin Hann) as Hfail.
  rewrite <- Hanns in Hfail. by rewrite Hfail.
Qed.



End outcomes.

(** ** The loop over a shard on the caller's dicts *)

(** Line 44 assigns into the dict it was handed and line 46 appends that
    same dict: a caller in the same process gets back the objects it passed,
    updated.  The objects are a store from references to dicts, and the
    lists hold references. *)
Section in_place.
Context {memory : Memory}.
Context {Val : Type}.
Variable rle_encode : ndarray → Val.
Variable ann_to_mask : gmap string Val → result ndarray.

Implicit Types (objects : nat → gmap string Val) (ratio : float).
Implicit Types (annotations new_annotations finished rest : list nat).

(** The loop of lines 39 to 46 on the store. *)
Fixpoint in_place_loop ratio annotations objects new_annotations
    : (nat → gmap string Val) * result (list nat) :=
  match annotations with
  | [] => (objects, Ok new_annotations)
  | ann :: annotations =>
      match augment_annotation rle_encode ann_to_mask ratio (objects ann) with
      | Ok ann' =>
          in_place_loop ratio annotations (<[ann := ann']> objects)
            (new_annotations ++ [ann])
      | Raise e => (objects, Raise e)
      end
  end.

(** Lines 36 to 48 on the store: the store after the call, and the
    references returned or the exception. *)
Definition single_core_in_place (proc_id : nat) annotations objects ratio
    : (nat → gmap string Val) * result (list nat) :=
  in_place_loop ratio annotations objects [].

(** No dict is handed in twice, or the mask provider does not read the key
    ["boundary"]. *)
Definition distinct_or_unread annotations : Prop :=
  NoDup annotations
  ∨ ∀ (ann : gmap string Val) v,
      ann_to_mask (<["boundary" := v]> ann) = ann_to_mask ann.

Lemma distinct_or_unread_cons r annotations :
  distinct_or_unread (r :: annotations) → distinct_or_unread annotations.
Proof.
  intros [[_ Hnodup]%NoDup_cons|Hunread]; [by left|by right].
Qed.

Lemma distinct_or_unread_app finished rest :
  distinct_or_unread (finished ++ rest) → distinct_or_unread finished.
Proof.
  intros [(Hnodup & _ & _)%NoDup_app|Hunread]; [by left|by right].
Qed.

(** A dict that comes up again has its boundary, and gets the same one. *)
Lemma augment_repeated ratio r annotations (ann ann' : gmap string Val) :
  distinct_or_unread (r :: annotations) → r ∈ annotations →
  augment_annotation rle_encode ann_to_mask ratio ann = Ok ann' →
  augment_annotation rle_encode ann_to_mask ratio ann' = Ok ann'.
Proof.
  intros [[Hnotin _]%NoDup_cons|Hunread] Hin Hann; [done|].
  by eapply augment_again.
Qed.

Lemma in_place_loop_succeeds ratio annotations objects new_annotations :
  distinct_or_unread annotations →
  (∀ r, r ∈ annotations →
     is_Ok (augment_annotation rle_encode ann_to_mask ratio (objects r))) →
  ∃ objects',
    in_place_loop ratio annotations objects new_annotations
    = (objects', Ok (new_annotations ++ annotations))
    ∧ (∀ r, r ∈ annotations →
         augment_annotation rle_encode ann_to_mask ratio (objects r)
         = Ok (objects' r))
    ∧ ∀ r, r ∉ annotations → objects' r = objects r.
Proof.
  revert objects new_annotations.
  induction annotations as [|r0 annotations IH];
    intros objects new_annotations Hdist Hall; simpl.
  - exists objects. rewrite app_nil_r. split_and!; [done| |done].
    by intros r ?%elem_of_nil.
  - destruct (Hall r0) as [ann0 Hann0]; [left|]. rewrite Hann0.
    destruct (IH (<[r0 := ann0]> objects) (new_annotations ++ [r0]))
      as (objects' & -> & Haug & Hframe).
    + by eapply distinct_or_unread_cons.
    + intros r Hr. destruct (decide (r0 = r)) as [->|Hne].
      * rewrite functions.fn_lookup_insert. eexists.
        by eapply augment_repeated.
      * rewrite functions.fn_lookup_insert_ne by done. apply Hall. by right.
    + exists objects'. rewrite <- app_assoc. split_and!; [done| |].
      * intros r Hr. destruct (decide (r0 = r)) as [->|Hne].
        -- rewrite Hann0. f_equal.
           destruct (decide (r ∈ annotations)) as [Hin|Hnotin].
           ++ pose proof (Haug r Hin) as Hr'.
              rewrite functions.fn_lookup_insert in Hr'.
              rewrite (augment_repeated _ _ _ _ _ Hdist Hin Hann0) in Hr'.
              congruence.
           ++ by rewrite Hframe, functions.fn_lookup_insert.
        -- apply elem_of_cons in Hr as [->|Hr]; [done|].
           rewrite <- (Haug r Hr). by rewrite functions.fn_lookup_insert_ne.
      * intros r [Hne Hnotin]%not_elem_of_cons.
        rewrite Hframe by done. by rewrite functions.fn_lookup_insert_ne.
Qed.

Lemma in_place_loop_app ratio finished rest objects new_annotations :
  in_place_loop ratio (finished ++ rest) objects new_annotations
  = match in_place_loop ratio finished objects new_annotations with
    | (objects', Ok new_annotations') =>
        in_place_loop ratio rest objects' new_annotations'
    | (objects', Raise e) => (objects', Raise e)
    end.
Proof.
  revert objects new_annotations.
  induction finished as [|r finished IH]; intros objects new_annotations;
    simpl; [done|].
  by destruct (augment_annotation _ _ _ _).
Qed.

(** X16.  Called in the caller's own process on dicts that can all be
    augmented, no dict handed in twice or a mask provider that does not
    read the key ["boundary"], the function returns the very dicts it was
    handed, in order, and has stored each boundary in them: read after the
    call, they are the annotations a pass over copies returns, and no other
    dict of the caller has changed. *)
Theorem in_place_returns_its_arguments (proc_id : nat) ratio annotations
    objects :
  distinct_or_unread annotations →
  Forall (λ ann, is_Ok (augment_annotation rle_encode ann_to_mask ratio ann))
    (objects <$> annotations) →
  ∃ objects',
    single_core_in_place proc_id annotations objects ratio
    = (objects', Ok annotations)
    ∧ augment_annotations_with_boundary_single_core rle_encode ann_to_mask
        proc_id (objects <$> annotations) ratio
      = (objects <$> annotations, Ok (objects' <$> annotations))
    ∧ ∀ r, r ∉ annotations → objects' r = objects r.
Proof.
  intros Hdist Hall.
  destruct (in_place_loop_succeeds ratio annotations objects [] Hdist)
    as (objects' & Hrun & Haug & Hframe).
  { intros r Hr. rewrite Forall_fmap, Forall_forall in Hall.
    by apply Hall. }
  exists objects'. split_and!; [done| |done].
  unfold augment_annotations_with_boundary_single_core.
  rewrite (single_core_loop_succeeds rle_encode ann_to_mask ratio
    (objects <$> annotations) (objects' <$> annotations) [] []); [done|].
  apply Forall2_fmap, Forall2_same_length_lookup. split; [done|].
  intros i r r' Hr Hr'. assert (r' = r) as -> by congruence.
  apply Haug. by eapply list_elem_of_lookup_2.
Qed.

(** X17.  When an annotation cannot be augmented, a caller in the same
    process is left with its dicts half done: the function raises the
    exception of that annotation, the dicts before it carry their boundary,
    and every other dict, the failing one and those after it, is as it
    was. *)
Theorem in_place_failure_is_partial (proc_id : nat) ratio finished r rest
    objects e :
  distinct_or_unread finished →
  Forall (λ ann, is_Ok (augment_annotation rle_encode ann_to_mask ratio ann))
    (objects <$> finished) →
  augment_annotation rle_encode ann_to_mask ratio (objects r) = Raise e →
  ∃ objects',
    single_core_in_place proc_id (finished ++ r :: rest) objects ratio
    = (objects', Raise e)
    ∧ (∀ r', r' ∈ finished →
         augment_annotation rle_encode ann_to_mask ratio (objects r')
         = Ok (objects' r'))
    ∧ ∀ r', r' ∉ finished → objects' r' = objects r'.
Proof.
  intros Hdist Hall Hr.
  assert (∀ r', r' ∈ finished →
    is_Ok (augment_annotation rle_encode ann_to_mask ratio (objects r')))
    as Hall'.
  { intros r' Hr'. rewrite Forall_fmap, Forall_forall in Hall.
    by apply Hall. }
  destruct (in_place_loop_succeeds ratio finished objects [] Hdist Hall')
    as (objects' & Hrun & Haug & Hframe).
  assert (r ∉ finished) as Hnotin.
  { intros [ann Hann]%Hall'. congruence. }
  exists objects'. split_and!; [|done..].
  unfold single_core_in_place. rewrite in_place_loop_app, Hrun. simpl.
  by rewrite (Hframe r Hnotin), Hr.
Qed.

End in_place.

(** * The properties on concrete inputs *)

(** ** A small dataset *)

(** A process with memory for matrices of up to a gibibyte. *)
#[global] Instance example_memory : Memory :=
  {| allocates height width := height * width <=? 2 ^ 30 |}.

(** Annotations that store their mask under ["segmentation"], a codec that
    stores the boundary mask as it is, four processors, an index that is
    the list of annotations, and documents that are their annotation
    list. *)
Definition example_ann_to_mask (ann : gmap string ndarray) : result ndarray :=
  match ann !! "segmentation" with
  | Some mask => Ok mask
  | None => Raise (KeyError "segmentation")
  end.

Definition example_cpu_count : positive := 4.

Definition example_COCO_init (document : list (gmap string ndarray))
    : result (@COCO ndarray (list (gmap string ndarray))) :=
  Ok (Coco false document document).

Definition square_annotation : gmap string ndarray :=
  {[ "segmentation" := np_ones 10 10 ]}.

Definition corner_annotation : gmap string ndarray :=
  {[ "segmentation" := NdArray 2 3 [[1; 1; 0]; [1; 0; 0]] ]}.

Definition dot_annotation : gmap string ndarray :=
  {[ "segmentation" := np_ones 1 1 ]}.

Definition maskless_annotation : gmap string ndarray :=
  {[ "bbox" := np_ones 1 1 ]}.

Definition example_annotations : list (gmap string ndarray) :=
  [square_annotation; corner_annotation; dot_annotation].

Definition example_coco : @COCO ndarray (list (gmap string ndarray)) :=
  Coco false example_annotations example_annotations.

Definition example_file : path := ["data"; "instances_val.json"]%string.

Definition example_files : gmap path (list (gmap string ndarray)) :=
  {[ example_file := [dot_annotation] ]}.






(** The pipeline on this dataset. *)
Abbreviation example_augment :=
  (augment_annotation id example_ann_to_mask default_dilation_ratio).
Abbreviation example_single_core :=
  (augment_annotations_with_boundary_single_core id example_ann_to_mask).
Abbreviation example_multi_core :=
  (augment_annotations_with_boundary_multi_core id example_ann_to_mask
     example_cpu_count).
Abbreviation example_gather := (submit_and_gather id example_ann_to_mask).
Abbreviation example_add_boundary :=
  (add_boundary_multi_core (Index:=list (gmap string ndarray))
     id example_ann_to_mask example_cpu_count).
Abbreviation example_after := (after (Val:=ndarray) id).
Abbreviation example_save :=
  (coco_add_boundaries_and_save_as_annotation_file id example_ann_to_mask
     example_cpu_count id example_COCO_init id (λ _ anns_b, anns_b) Ok).
Abbreviation example_writes_new_file_beside :=
  (writes_new_file_beside id example_ann_to_mask example_cpu_count id
     example_COCO_init id (λ _ anns_b, anns_b) Ok).

Lemma example_ann_to_mask_ignores_boundary (ann : gmap string ndarray) v :
  example_ann_to_mask (<["boundary" := v]> ann) = example_ann_to_mask ann.
Proof. unfold example_ann_to_mask. by rewrite lookup_insert_ne. Defined.

Lemma example_annotations_succeed :
  Forall (λ ann, is_Ok (example_augment ann)) example_annotations.
Proof. repeat constructor; eexists; vm_compute; reflexivity. Defined.

(** ** Checks of the model on known values *)

(** Python rounds halves to the even neighbour. *)
Example py_round_halves :
  py_round 0.5 = Ok 0 ∧ py_round 1.5 = Ok 2 ∧ py_round 2.5 = Ok 2
  ∧ py_round (-2.5) = Ok (-2) ∧ py_round (-0.75) = Ok (-1)
  ∧ py_round 1e22 = Ok (10 ^ 22).
Proof. by vm_compute. Qed.

(** The diagonal of a 3 by 4 image is 5. *)
Example np_sqrt_25 : np_sqrt (3 ^ 2 + 4 ^ 2) = 5%float.
Proof. by vm_compute. Qed.

(** Eight elements in three sections: sizes 3, 3 and 2. *)
Example array_split_8_3 :
  array_split [0; 1; 2; 3; 4; 5; 6; 7] 3
  = Ok [[0; 1; 2]; [3; 4; 5]; [6; 7]].
Proof. by vm_compute. Qed.

(** Two erosions of a 5 by 5 square of ones leave its centre: the
    boundary is the band of width two. *)
Example erode_twice :
  data (erosion_difference (np_ones 5 5) 2)
  = [[1; 1; 1; 1; 1]; [1; 1; 1; 1; 1]; [1; 1; 0; 1; 1];
     [1; 1; 1; 1; 1]; [1; 1; 1; 1; 1]].
Proof. by vm_compute. Qed.

(** Stems and suffixes as [pathlib] cuts them. *)
Example stems_and_suffixes :
  (path_stem ["instances_val.json"], path_suffix ["instances_val.json"])
    = ("instances_val", ".json")
  ∧ (path_stem ["archive.tar.gz"], path_suffix ["archive.tar.gz"])
    = ("archive.tar", ".gz")
  ∧ (path_stem [".bashrc"], path_suffix [".bashrc"]) = (".bashrc", "")
  ∧ (path_stem ["notes."], path_suffix ["notes."]) = ("notes.", "")
  ∧ (path_stem ["LICENSE"], path_suffix ["LICENSE"]) = ("LICENSE", "").
Proof. by vm_compute. Qed.

(** ** The claims on concrete inputs *)

(** Shape and value domain of a mask that is written out. *)
Ltac concrete_mask :=
  unfold well_shaped, binary; simpl;
  repeat match goal with
         | |- Forall _ [] => apply Forall_nil_2
         | |- Forall _ (_ :: _) => apply Forall_cons_2
         | |- _ ∧ _ => split
         | |- _ ∨ _ => first [left; reflexivity | right; reflexivity]
         | |- _ = _ => reflexivity
         end.

(** C1 on the 5 by 5 mask of ones with the ratio 0.25: two erosions, and
    the boundary is all of the mask but its centre. *)
Lemma mask_to_boundary_returns_boundary_witness :
  let mask := np_ones 5 5 in
  well_shaped mask ∧ binary mask
  ∧ is_finite (scaled_diagonal mask 0.25) = true
  ∧ (∀ dilation,
       dilation_of (rows mask) (cols mask) 0.25 = Ok dilation →
       erode_accepts dilation = true)
  ∧ dilation_of (rows mask) (cols mask) 0.25 = Ok 2
  ∧ returns_boundary mask 0.25.
Proof.
  intros mask.
  assert (well_shaped mask) as Hws by concrete_mask.
  assert (binary mask) as Hbin by concrete_mask.
  assert (is_finite (scaled_diagonal mask 0.25) = true)
    as Hfin by (vm_compute; reflexivity).
  assert (dilation_of (rows mask) (cols mask) 0.25 = Ok 2) as Hd
    by (vm_compute; reflexivity).
  assert (∀ dilation,
    dilation_of (rows mask) (cols mask) 0.25 = Ok dilation →
    erode_accepts dilation = true) as Hacc.
  { intros dilation Hd'. rewrite Hd in Hd'. injection Hd' as <-.
    vm_compute. reflexivity. }
  do 5 (split; [done|]).
  exact (mask_to_boundary_returns_boundary mask 0.25 Hws Hbin Hfin Hacc).
Defined.

(** C1 as stated fails where the ratio is not a number: line 23 raises
    [ValueError] and no mask is returned.  It also fails for a finite
    product whose dilation is no C [int], where line 29 raises. *)
Lemma nan_ratio_returns_no_boundary :
  well_shaped (np_ones 1 1) ∧ binary (np_ones 1 1)
  ∧ mask_to_boundary (np_ones 1 1) nan
    = Raise (ValueError "cannot convert float NaN to integer")
  ∧ ¬ returns_boundary (np_ones 1 1) nan
  ∧ is_finite (scaled_diagonal (np_ones 1 1) 1e10) = true
  ∧ mask_to_boundary (np_ones 1 1) 1e10 = Raise cv2_error
  ∧ ¬ returns_boundary (np_ones 1 1) 1e10.
Proof.
  split_and!.
  - concrete_mask.
  - concrete_mask.
  - vm_compute. reflexivity.
  - intros (dilation & boundary & _ & Hret & _).
    vm_compute in Hret. discriminate.
  - vm_compute. reflexivity.
  - vm_compute. reflexivity.
  - intros (dilation & boundary & _ & Hret & _).
    vm_compute in Hret. discriminate.
Qed.

(** C9 on a 2 by 3 mask with a negative ratio. *)
Lemma minimum_dilation_witness :
  let mask := NdArray 2 3 [[1; 1; 0]; [1; 0; 0]] in
  is_finite (scaled_diagonal mask (-0.5)) = true
  ∧ (-0.5 <=? 0)%float = true
  ∧ erodes_once mask (-0.5)%float.
Proof.
  intros mask.
  assert (is_finite (scaled_diagonal mask (-0.5)) = true) as Hfin
    by (vm_compute; reflexivity).
  assert ((-0.5 <=? 0)%float = true) as Hle by (vm_compute; reflexivity).
  do 2 (split; [done|]).
  exact (minimum_dilation mask (-0.5)%float Hfin (or_introl Hle)).
Defined.

(** C9 as stated fails for ratios that are at most zero but whose product
    with the diagonal is not finite: a finite ratio of about [-1.5e308]
    and minus infinity both make line 23 raise [OverflowError]. *)
Lemma overflowing_ratio_raises :
  (huge_negative_ratio <=? 0)%float = true
  ∧ is_finite huge_negative_ratio = true
  ∧ mask_to_boundary (np_ones 1 1) huge_negative_ratio
    = Raise (OverflowError "cannot convert float infinity to integer")
  ∧ ¬ erodes_once (np_ones 1 1) huge_negative_ratio
  ∧ (neg_infinity <=? 0)%float = true
  ∧ mask_to_boundary (np_ones 1 1) neg_infinity
    = Raise (OverflowError "cannot convert float infinity to integer").
Proof.
  split_and!; try (vm_compute; reflexivity).
  intros (_ & Hret & _). vm_compute in Hret. discriminate.
Qed.

(** C2 on three annotations, two shards and a request for 16 workers. *)
Lemma sequential_equals_parallel_witness :
  let sequential :=
    (example_single_core 0 example_annotations default_dilation_ratio).2 in
  0 < 2 ∧ 0 < 16 ∧ get_boundary example_coco = false
  ∧ dataset_annotations example_coco = example_annotations
  ∧ (∃ shards, array_split example_annotations 2 = Ok shards
               ∧ (example_gather shards default_dilation_ratio).2 = sequential)
  ∧ (example_multi_core example_annotations default_dilation_ratio).2
    = sequential
  ∧ match sequential with
    | Ok new_annotations =>
        (example_add_boundary example_coco 16 default_dilation_ratio).2
        = Ok ()
        ∧ dataset_annotations
            (example_after example_coco
               (example_add_boundary example_coco 16
                  default_dilation_ratio).1)
          = new_annotations
    | Raise e =>
        (example_add_boundary example_coco 16 default_dilation_ratio).2
        = Raise e
    end.
Proof.
  intros sequential.
  assert (0 < 2) as H2 by lia. assert (0 < 16) as H16 by lia.
  do 4 (split; [done|]).
  exact (sequential_equals_parallel id example_ann_to_mask example_cpu_count
           id example_annotations default_dilation_ratio 2 16 example_coco
           H2 H16 eq_refl eq_refl).
Defined.

(** C3 on three annotations and two workers. *)
Lemma shards_preserve_order_witness :
  0 < 2 ∧ 2 ≤ Z.of_nat (length example_annotations)
  ∧ ∃ shards,
      array_split example_annotations 2 = Ok shards
      ∧ length shards = Z.to_nat 2
      ∧ (∀ i, (i < Z.to_nat 2)%nat →
           ∃ shard, shards !! i = Some shard
             ∧ length shard
               = (length example_annotations / Z.to_nat 2
                  + if decide (i < length example_annotations mod Z.to_nat 2)%nat
                    then 1 else 0)%nat)
      ∧ sum_list (length <$> shards) = length example_annotations
      ∧ mjoin shards = example_annotations
      ∧ ∀ out,
          ((example_gather shards default_dilation_ratio).2 = Ok out
           ↔ Forall2 (λ ann ann', example_augment ann = Ok ann')
               example_annotations out)
          ∧ ((example_gather shards default_dilation_ratio).2 = Ok out →
             length out = length example_annotations
             ∧ ∀ i ann', out !! i = Some ann' →
                 ∃ ann, example_annotations !! i = Some ann
                        ∧ example_augment ann = Ok ann').
Proof.
  assert (0 < 2) as Hpos by lia.
  assert (2 ≤ Z.of_nat (length example_annotations)) as Hle by (simpl; lia).
  do 2 (split; [done|]).
  exact (shards_preserve_order id example_ann_to_mask example_annotations
           default_dilation_ratio 2 Hpos Hle).
Defined.

(** C4 on the dataset a first call leaves: the second call, with other
    arguments, changes nothing. *)
Lemma second_call_is_noop_witness :
  let first := example_add_boundary example_coco 16 default_dilation_ratio in
  let coco := example_after example_coco first.1 in
  let call := example_add_boundary coco 2 nan in
  first.2 = Ok ()
  ∧ get_boundary coco = true
  ∧ call = (Effects [Found_existing_boundaries] [] [], Ok ())
  ∧ provider_calls call.1 = []
  ∧ example_after coco call.1 = coco
  ∧ dataset_annotations (example_after coco call.1) = dataset_annotations coco.
Proof.
  intros first coco call.
  assert (first.2 = Ok ()) as Hfirst by (vm_compute; reflexivity).
  split; [exact Hfirst|].
  apply (second_call_is_noop id example_ann_to_mask example_cpu_count id
           coco 2 nan).
  right. by exists example_coco, 16, default_dilation_ratio.
Defined.

(** C5 on a dataset whose second annotation has no mask. *)
Lemma worker_failure_leaves_dataset_witness :
  let coco : @COCO ndarray (list (gmap string ndarray)) :=
    Coco false [dot_annotation; maskless_annotation; square_annotation] [] in
  let call := example_add_boundary coco 16 default_dilation_ratio in
  get_boundary coco = false
  ∧ maskless_annotation ∈ dataset_annotations coco
  ∧ example_augment maskless_annotation = Raise (KeyError "segmentation")
  ∧ (∃ e', call.2 = Raise e')
  ∧ writes call.1 = []
  ∧ example_after coco call.1 = coco
  ∧ get_boundary (example_after coco call.1) = false.
Proof.
  intros coco call.
  assert (maskless_annotation ∈ dataset_annotations coco) as Hin
    by (simpl; right; left).
  assert (example_augment maskless_annotation
          = Raise (KeyError "segmentation")) as Hraise
    by (vm_compute; reflexivity).
  do 3 (split; [done|]).
  exact (worker_failure_leaves_dataset id example_ann_to_mask
           example_cpu_count id coco 16 default_dilation_ratio
           maskless_annotation (KeyError "segmentation") eq_refl Hin Hraise).
Defined.

(** C10 on three annotations and four workers. *)
Lemma more_workers_than_annotations_witness :
  Z.of_nat (length example_annotations) < 4
  ∧ Forall (λ ann, is_Ok (example_augment ann)) example_annotations
  ∧ ∃ shards out,
      array_split example_annotations 4 = Ok shards
      ∧ length shards = Z.to_nat 4
      ∧ (∀ i, (length example_annotations ≤ i < Z.to_nat 4)%nat →
           shards !! i = Some [])
      ∧ (example_gather shards default_dilation_ratio).2 = Ok out
      ∧ Forall2 (λ ann ann',
           ∃ v, ann' = <["boundary" := v]> ann
                ∧ ∀ key, key ≠ "boundary" → ann' !! key = ann !! key)
          example_annotations out
      ∧ (example_annotations = [] → out = [])
      ∧ ∀ (coco : @COCO ndarray (list (gmap string ndarray))) cpu_num,
          get_boundary coco = false →
          dataset_annotations coco = example_annotations →
          cpu_num `min` Z.pos example_cpu_count = 4 →
          (example_add_boundary coco cpu_num default_dilation_ratio).2 = Ok ()
          ∧ example_after coco
              (example_add_boundary coco cpu_num default_dilation_ratio).1
            = Coco true out (id out).
Proof.
  assert (Z.of_nat (length example_annotations) < 4) as Hlt by (simpl; lia).
  split; [done|]. split; [exact example_annotations_succeed|].
  exact (more_workers_than_annotations id example_ann_to_mask
           example_cpu_count id example_annotations default_dilation_ratio 4
           Hlt example_annotations_succeed).
Defined.



(** C6 on a file in [/data] and the default suffix. *)
Lemma saved_beside_original_witness :
  example_file ≠ [] ∧ Forall is_component example_file
  ∧ default_stem_addon ≠ EmptyString
  ∧ contains "/" default_stem_addon = false
  ∧ new_annotation_file example_file default_stem_addon
    = ["data"; "instances_val_b.json"]%string
  ∧ example_writes_new_file_beside example_files example_file
      default_stem_addon.
Proof.
  assert (example_file ≠ []) as Hne by discriminate.
  assert (Forall is_component example_file) as Hcomps
    by (repeat constructor; discriminate).
  assert (default_stem_addon ≠ EmptyString) as Haddon by discriminate.
  do 4 (split; [done|]). split; [by vm_compute|].
  exact (saved_beside_original id example_ann_to_mask example_cpu_count id
           example_COCO_init id (λ _ anns_b, anns_b) Ok example_files
           example_file default_stem_addon Hne Hcomps Haddon eq_refl).
Defined.

(** C6 as stated fails for two suffixes.  With the empty suffix the new
    path is the path of the original, and the call replaces the content of
    the original file.  With a suffix that holds a slash the new file lies
    in another directory and its name is not the stem, the suffix and the
    extension. *)
Lemma empty_suffix_overwrites_original :
  new_annotation_file example_file "" = example_file
  ∧ (example_save example_files example_file "").2 = Ok ()
  ∧ (example_save example_files example_file "").1.1 !! example_file
    ≠ example_files !! example_file
  ∧ ¬ example_writes_new_file_beside example_files example_file ""
  ∧ new_annotation_file example_file "/x"
    = ["data"; "instances_val"; "x.json"]%string
  ∧ ¬ example_writes_new_file_beside example_files example_file "/x".
Proof.
  assert ((example_save example_files example_file "").1.1 !! example_file
          ≠ example_files !! example_file) as Hdiff.
  { intros Hsame.
    apply (f_equal (λ content : option (list (gmap string ndarray)),
      content ≫= λ document, document !! 0%nat ≫= λ ann,
      ann !! "boundary")) in Hsame.
    vm_compute in Hsame. discriminate. }
  split_and!.
  - vm_compute. reflexivity.
  - vm_compute. reflexivity.
  - exact Hdiff.
  - by intros (_ & _ & _ & Hsame).
  - vm_compute. reflexivity.
  - intros (_ & Hparent & _). vm_compute in Hparent. discriminate.
Qed.

(** ** The further properties on concrete inputs *)

(** X1 on a 7 by 7 mask with one background pixel in a corner: two
    erosions leave the eight pixels that are more than two away from the
    border and from that corner. *)
Lemma boundary_is_edge_band_witness :
  let mask :=
    NdArray 7 7
      [[0; 1; 1; 1; 1; 1; 1]; [1; 1; 1; 1; 1; 1; 1]; [1; 1; 1; 1; 1; 1; 1];
       [1; 1; 1; 1; 1; 1; 1]; [1; 1; 1; 1; 1; 1; 1]; [1; 1; 1; 1; 1; 1; 1];
       [1; 1; 1; 1; 1; 1; 1]] in
  let boundary :=
    NdArray 7 7
      [[0; 1; 1; 1; 1; 1; 1]; [1; 1; 1; 1; 1; 1; 1]; [1; 1; 1; 0; 0; 1; 1];
       [1; 1; 0; 0; 0; 1; 1]; [1; 1; 0; 0; 0; 1; 1]; [1; 1; 1; 1; 1; 1; 1];
       [1; 1; 1; 1; 1; 1; 1]] in
  well_shaped mask ∧ binary mask
  ∧ mask_to_boundary mask 0.25 = Ok boundary
  ∧ dilation_of (rows mask) (cols mask) 0.25 = Ok 2
  ∧ ∃ dilation,
      dilation_of (rows mask) (cols mask) 0.25 = Ok dilation
      ∧ 1 ≤ dilation
      ∧ ∀ i j, pixel boundary i j = Some 1
               ↔ pixel mask i j = Some 1
                 ∧ edge_within (Z.to_nat dilation) mask i j.
Proof.
  intros mask boundary.
  assert (well_shaped mask) as Hws by concrete_mask.
  assert (binary mask) as Hbin by concrete_mask.
  assert (mask_to_boundary mask 0.25 = Ok boundary) as Hret
    by (vm_compute; reflexivity).
  do 3 (split; [done|]). split; [by vm_compute|].
  exact (boundary_is_edge_band mask 0.25 boundary Hws Hbin Hret).
Defined.

(** X2 on a pixel of the first row of a 3 by 3 square. *)
Lemma border_foreground_is_boundary_witness :
  let mask := np_ones 3 3 in
  let boundary := NdArray 3 3 [[1; 1; 1]; [1; 0; 1]; [1; 1; 1]] in
  well_shaped mask ∧ binary mask
  ∧ mask_to_boundary mask default_dilation_ratio = Ok boundary
  ∧ pixel mask 0 1 = Some 1
  ∧ (0 = 0 ∨ 1 = 0 ∨ 1 = rows mask ∨ 2 = cols mask)%nat
  ∧ pixel boundary 0 1 = Some 1.
Proof.
  intros mask boundary.
  assert (well_shaped mask) as Hws by concrete_mask.
  assert (binary mask) as Hbin by concrete_mask.
  assert (mask_to_boundary mask default_dilation_ratio = Ok boundary)
    as Hret by (vm_compute; reflexivity).
  do 4 (split; [done|]). split; [by left|].
  exact (border_foreground_is_boundary mask default_dilation_ratio boundary
           0 1 Hws Hbin Hret eq_refl (or_introl eq_refl)).
Defined.

(** X3 on a 2 by 2 mask of zeros. *)
Lemma zero_mask_zero_boundary_witness :
  let mask := NdArray 2 2 [[0; 0]; [0; 0]] in
  well_shaped mask ∧ (∀ i j v, pixel mask i j = Some v → v = 0)
  ∧ mask_to_boundary mask default_dilation_ratio = Ok mask
  ∧ shape mask = shape mask
  ∧ ∀ i j, (i < rows mask)%nat → (j < cols mask)%nat →
      pixel mask i j = Some 0.
Proof.
  intros mask.
  assert (well_shaped mask) as Hws by concrete_mask.
  assert (∀ i j v, pixel mask i j = Some v → v = 0) as Hzero.
  { intros [|[|i]] [|[|j]] v Hv; vm_compute in Hv; congruence. }
  assert (mask_to_boundary mask default_dilation_ratio = Ok mask) as Hret
    by (vm_compute; reflexivity).
  do 3 (split; [done|]).
  exact (zero_mask_zero_boundary mask default_dilation_ratio mask Hws Hzero
           Hret).
Defined.

(** X4 on a 5 by 5 square: one erosion for the default ratio, which gives
    the ring of width one, and two for a ratio of a quarter, which give all
    but the centre. *)
Lemma boundary_grows_with_dilation_witness :
  let mask := np_ones 5 5 in
  let boundary1 :=
    NdArray 5 5
      [[1; 1; 1; 1; 1]; [1; 0; 0; 0; 1]; [1; 0; 0; 0; 1]; [1; 0; 0; 0; 1];
       [1; 1; 1; 1; 1]] in
  let boundary2 :=
    NdArray 5 5
      [[1; 1; 1; 1; 1]; [1; 1; 1; 1; 1]; [1; 1; 0; 1; 1]; [1; 1; 1; 1; 1];
       [1; 1; 1; 1; 1]] in
  well_shaped mask ∧ binary mask
  ∧ dilation_of (rows mask) (cols mask) default_dilation_ratio = Ok 1
  ∧ dilation_of (rows mask) (cols mask) 0.25 = Ok 2
  ∧ 1 ≤ 2
  ∧ mask_to_boundary mask default_dilation_ratio = Ok boundary1
  ∧ mask_to_boundary mask 0.25 = Ok boundary2
  ∧ ∀ i j, pixel boundary1 i j = Some 1 → pixel boundary2 i j = Some 1.
Proof.
  intros mask boundary1 boundary2.
  assert (well_shaped mask) as Hws by concrete_mask.
  assert (binary mask) as Hbin by concrete_mask.
  assert (dilation_of (rows mask) (cols mask) default_dilation_ratio = Ok 1)
    as Hd1 by (vm_compute; reflexivity).
  assert (dilation_of (rows mask) (cols mask) 0.25 = Ok 2)
    as Hd2 by (vm_compute; reflexivity).
  assert (1 ≤ 2) as Hle by lia.
  assert (mask_to_boundary mask default_dilation_ratio = Ok boundary1)
    as Hret1 by (vm_compute; reflexivity).
  assert (mask_to_boundary mask 0.25 = Ok boundary2) as Hret2
    by (vm_compute; reflexivity).
  do 7 (split; [done|]).
  exact (boundary_grows_with_dilation mask default_dilation_ratio 0.25 1 2
           boundary1 boundary2 Hws Hbin Hd1 Hd2 Hle Hret1 Hret2).
Defined.

(** X5 on a 5 by 5 square and two erosions. *)
Lemma full_mask_boundary_is_frame_witness :
  let boundary :=
    NdArray 5 5
      [[1; 1; 1; 1; 1]; [1; 1; 1; 1; 1]; [1; 1; 0; 1; 1]; [1; 1; 1; 1; 1];
       [1; 1; 1; 1; 1]] in
  mask_to_boundary (np_ones 5 5) 0.25 = Ok boundary
  ∧ dilation_of 5 5 0.25 = Ok 2
  ∧ ∃ dilation,
      dilation_of 5 5 0.25 = Ok dilation
      ∧ 1 ≤ dilation
      ∧ ∀ i j, pixel boundary i j = Some 1
               ↔ (i < 5 ∧ j < 5)%nat
                 ∧ (i < Z.to_nat dilation ∨ j < Z.to_nat dilation
                    ∨ 5 ≤ i + Z.to_nat dilation
                    ∨ 5 ≤ j + Z.to_nat dilation)%nat.
Proof.
  intros boundary.
  assert (mask_to_boundary (np_ones 5 5) 0.25 = Ok boundary) as Hret
    by (vm_compute; reflexivity).
  split; [done|]. split; [by vm_compute|].
  exact (full_mask_boundary_is_frame 5 5 0.25 boundary Hret).
Defined.

(** X6 on a shard whose second annotation has no mask. *)
Lemma single_core_stops_at_first_failure_witness :
  Forall (λ ann, is_Ok (example_augment ann)) [dot_annotation]
  ∧ example_augment maskless_annotation = Raise (KeyError "segmentation")
  ∧ example_single_core 3
      ([dot_annotation] ++ maskless_annotation :: [square_annotation])
      default_dilation_ratio
    = ([dot_annotation] ++ [maskless_annotation],
       Raise (KeyError "segmentation")).
Proof.
  assert (Forall (λ ann, is_Ok (example_augment ann)) [dot_annotation])
    as Hfin by (repeat constructor; eexists; vm_compute; reflexivity).
  assert (example_augment maskless_annotation
          = Raise (KeyError "segmentation")) as Hraise
    by (vm_compute; reflexivity).
  do 2 (split; [done|]).
  exact (single_core_stops_at_first_failure id example_ann_to_mask 3
           default_dilation_ratio [dot_annotation] maskless_annotation
           [square_annotation] (KeyError "segmentation") Hfin Hraise).
Defined.

(** X7 on the example dataset and a request for 16 workers. *)
Lemma every_annotation_masked_once_witness :
  let call := example_add_boundary example_coco 16 default_dilation_ratio in
  get_boundary example_coco = false ∧ 0 < 16
  ∧ Forall (λ ann, is_Ok (example_augment ann))
      (dataset_annotations example_coco)
  ∧ length (provider_calls call.1)
    = Z.to_nat (16 `min` Z.pos example_cpu_count)
  ∧ mjoin (provider_calls call.1) = dataset_annotations example_coco.
Proof.
  intros call. assert (0 < 16) as Hpos by lia.
  do 2 (split; [done|]). split; [exact example_annotations_succeed|].
  exact (every_annotation_masked_once id example_ann_to_mask
           example_cpu_count example_coco 16 default_dilation_ratio
           eq_refl Hpos example_annotations_succeed).
Defined.

(** X8 on the example dataset and no worker. *)
Lemma nonpositive_cpu_num_is_refused_witness :
  get_boundary example_coco = false ∧ 0 ≤ 0
  ∧ example_add_boundary example_coco 0 default_dilation_ratio
    = (Effects [Adding_boundary] [] [],
       Raise (ValueError "number sections must be larger than 0."))
  ∧ example_after example_coco
      (example_add_boundary example_coco 0 default_dilation_ratio).1
    = example_coco.
Proof.
  assert (0 ≤ 0) as Hle by lia.
  do 2 (split; [done|]).
  exact (nonpositive_cpu_num_is_refused id example_ann_to_mask
           example_cpu_count id example_coco 0 default_dilation_ratio
           eq_refl Hle).
Defined.

(** X9 on the example annotations. *)
Lemma recomputation_is_idempotent_witness :
  ∃ out,
    (example_single_core 0 example_annotations default_dilation_ratio).2
    = Ok out
    ∧ (example_single_core 0 out default_dilation_ratio).2 = Ok out
    ∧ ∀ ann v, example_augment (<["boundary" := v]> ann) = example_augment ann.
Proof.
  assert (∃ out,
    (example_single_core 0 example_annotations default_dilation_ratio).2
    = Ok out) as [out Hout] by (eexists; vm_compute; reflexivity).
  exists out. split; [exact Hout|].
  exact (recomputation_is_idempotent id example_ann_to_mask
           example_ann_to_mask_ignores_boundary 0 default_dilation_ratio
           example_annotations out Hout).
Defined.

(** X10 on the example file and an addon with a dot. *)
Lemma new_file_keeps_extension_witness :
  example_file ≠ [] ∧ Forall is_component example_file
  ∧ contains "/" "_b.v2" = false
  ∧ path_suffix example_file ≠ EmptyString
  ∧ new_annotation_file example_file "_b.v2"
    = ["data"; "instances_val_b.v2.json"]%string
  ∧ path_suffix (new_annotation_file example_file "_b.v2")
    = path_suffix example_file
  ∧ path_stem (new_annotation_file example_file "_b.v2")
    = path_stem example_file +:+ "_b.v2".
Proof.
  assert (example_file ≠ []) as Hne by discriminate.
  assert (Forall is_component example_file) as Hcomps
    by (repeat constructor; discriminate).
  assert (path_suffix example_file ≠ EmptyString) as Hsuffix
    by (vm_compute; discriminate).
  do 4 (split; [done|]). split; [by vm_compute|].
  exact (new_file_keeps_extension example_file "_b.v2" Hne Hcomps eq_refl
           Hsuffix).
Defined.

(** X11 on the example files and the default suffix. *)
Lemma save_again_changes_nothing_witness :
  example_file ≠ [] ∧ Forall is_component example_file
  ∧ default_stem_addon ≠ EmptyString
  ∧ contains "/" default_stem_addon = false
  ∧ (example_save example_files example_file default_stem_addon).2 = Ok ()
  ∧ example_save
      (example_save example_files example_file default_stem_addon).1.1
      example_file default_stem_addon
    = example_save example_files example_file default_stem_addon.
Proof.
  assert (example_file ≠ []) as Hne by discriminate.
  assert (Forall is_component example_file) as Hcomps
    by (repeat constructor; discriminate).
  assert (default_stem_addon ≠ EmptyString) as Haddon by discriminate.
  do 4 (split; [done|]). split; [by vm_compute|].
  exact (save_again_changes_nothing id example_ann_to_mask example_cpu_count
           id example_COCO_init id (λ _ anns_b, anns_b) Ok example_files
           example_file default_stem_addon Hne Hcomps Haddon eq_refl).
Defined.

(** X12 on a 3 by 3 mask with foreground 255: one erosion leaves the
    centre. *)
Lemma boundary_keeps_foreground_value_witness :
  let mask :=
    NdArray 3 3 [[255; 255; 255]; [255; 255; 255]; [255; 255; 255]] in
  let boundary :=
    NdArray 3 3 [[255; 255; 255]; [255; 0; 255]; [255; 255; 255]] in
  0 ≤ 255 ≤ 255 ∧ well_shaped mask ∧ two_valued 255 mask
  ∧ mask_to_boundary mask default_dilation_ratio = Ok boundary
  ∧ ∃ dilation,
      dilation_of (rows mask) (cols mask) default_dilation_ratio
      = Ok dilation
      ∧ shape boundary = shape mask ∧ well_shaped boundary
      ∧ two_valued 255 boundary
      ∧ ∀ i j m, pixel mask i j = Some m →
          ∃ e, pixel (eroded_padding mask dilation) (S i) (S j) = Some e
               ∧ (e = 0 ∨ e = 255) ∧ e ≤ m
               ∧ pixel boundary i j = Some (m - e).
Proof.
  intros mask boundary.
  assert (0 ≤ 255 ≤ 255) as Hc by lia.
  assert (well_shaped mask) as Hws by concrete_mask.
  assert (two_valued 255 mask) as Htwo by (unfold two_valued; concrete_mask).
  assert (mask_to_boundary mask default_dilation_ratio = Ok boundary)
    as Hret by (vm_compute; reflexivity).
  do 4 (split; [done|]).
  exact (boundary_keeps_foreground_value 255 Hc mask default_dilation_ratio
           boundary Hws Htwo Hret).
Defined.

(** X14 on a dataset whose second annotation has no mask, with two
    workers. *)
Lemma first_failure_decides_exception_witness :
  let coco : @COCO ndarray (list (gmap string ndarray)) :=
    Coco false [dot_annotation; maskless_annotation; square_annotation] [] in
  let call := example_add_boundary coco 2 default_dilation_ratio in
  get_boundary coco = false ∧ 0 < 2
  ∧ dataset_annotations coco
    = [dot_annotation] ++ maskless_annotation :: [square_annotation]
  ∧ Forall (λ ann, is_Ok (example_augment ann)) [dot_annotation]
  ∧ example_augment maskless_annotation = Raise (KeyError "segmentation")
  ∧ call.2 = Raise (KeyError "segmentation")
  ∧ printed call.1
    = [Adding_boundary;
       Number_of_cores (2 `min` Z.pos example_cpu_count)
         (first_shard_size (length (dataset_annotations coco))
            (Z.to_nat (2 `min` Z.pos example_cpu_count)))].
Proof.
  intros coco call.
  assert (Forall (λ ann, is_Ok (example_augment ann)) [dot_annotation])
    as Hfin by (repeat constructor; eexists; vm_compute; reflexivity).
  assert (example_augment maskless_annotation
          = Raise (KeyError "segmentation")) as Hraise
    by (vm_compute; reflexivity).
  do 5 (split; [done|]).
  exact (first_failure_decides_exception id example_ann_to_mask
           example_cpu_count coco 2 default_dilation_ratio [dot_annotation]
           maskless_annotation [square_annotation] (KeyError "segmentation")
           eq_refl eq_refl eq_refl Hfin Hraise).
Defined.


(** X16 on three references into the example dataset, one of them twice. *)
Lemma in_place_returns_its_arguments_witness :
  let objects := λ r : nat, default ∅ (example_annotations !! r) in
  let annotations := [2; 0; 2]%nat in
  distinct_or_unread example_ann_to_mask annotations
  ∧ Forall (λ ann, is_Ok (example_augment ann)) (objects <$> annotations)
  ∧ ∃ objects',
      single_core_in_place id example_ann_to_mask 0 annotations objects
        default_dilation_ratio
      = (objects', Ok annotations)
      ∧ example_single_core 0 (objects <$> annotations)
          default_dilation_ratio
        = (objects <$> annotations, Ok (objects' <$> annotations))
      ∧ ∀ r, r ∉ annotations → objects' r = objects r.
Proof.
  intros objects annotations.
  assert (distinct_or_unread example_ann_to_mask annotations) as Hdist
    by (right; apply example_ann_to_mask_ignores_boundary).
  assert (Forall (λ ann, is_Ok (example_augment ann))
            (objects <$> annotations)) as Hall
    by (repeat constructor; eexists; vm_compute; reflexivity).
  do 2 (split; [done|]).
  exact (in_place_returns_its_arguments id example_ann_to_mask 0
           default_dilation_ratio annotations objects Hdist Hall).
Defined.

(** X17 on a store whose second dict has no mask. *)
Lemma in_place_failure_is_partial_witness :
  let objects := λ r : nat,
    default ∅
      ([dot_annotation; maskless_annotation; square_annotation] !! r) in
  distinct_or_unread example_ann_to_mask [0%nat]
  ∧ Forall (λ ann, is_Ok (example_augment ann)) (objects <$> [0%nat])
  ∧ example_augment (objects 1%nat) = Raise (KeyError "segmentation")
  ∧ ∃ objects',
      single_core_in_place id example_ann_to_mask 0 ([0] ++ 1 :: [2])%nat
        objects default_dilation_ratio
      = (objects', Raise (KeyError "segmentation"))
      ∧ (∀ r', r' ∈ [0%nat] → example_augment (objects r') = Ok (objects' r'))
      ∧ ∀ r', r' ∉ [0%nat] → objects' r' = objects r'.
Proof.
  intros objects.
  assert (distinct_or_unread example_ann_to_mask [0%nat]) as Hdist
    by (left; apply NoDup_singleton).
  assert (Forall (λ ann, is_Ok (example_augment ann)) (objects <$> [0%nat]))
    as Hall by (repeat constructor; eexists; vm_compute; reflexivity).
  assert (example_augment (objects 1%nat) = Raise (KeyError "segmentation"))
    as Hraise by (vm_compute; reflexivity).
  do 3 (split; [done|]).
  exact (in_place_failure_is_partial id example_ann_to_mask 0
           default_dilation_ratio [0%nat] 1%nat [2%nat] objects
           (KeyError "segmentation") Hdist Hall Hraise).
Defined.
